(** * Verification model of the MDG-UBO-Tool ownership engine

    Shallow embedding of the Python sources:
    - [Share]   : the share-text parser [parse_pct_from_text] and
                  [parse_effective_from_text] (ownership_resolve_online.py);
    - [Ico]     : registry-ID normalisation ([norm_ico], [_normalize_ico]);
    - [Extract] : the owner extractor [extract_current_owners] (ares_vr_extract.py);
    - [Client]  : the caching registry client [AresVrClient.get_vr];
    - [Resolve] : the recursive tree resolver [resolve_tree_online];
    - [App]     : the UBO evaluator of app.py ([compute_effective_persons]
                  and the voting-block evaluation).

    Modelling conventions.
    - Python strings are Rocq [string]s (sequences of bytes holding the UTF-8
      encoding); regular expressions are matched byte-wise.  [\d] is an ASCII
      digit and [\s] an ASCII-range whitespace character (the non-ASCII
      Unicode digits and spaces Python also accepts are not modelled).
    - Python floats are modelled as exact rationals [Q] in the parser, the
      resolver and the person scan, where no claim turns on rounding; the
      UBO threshold tests of app.py, whose outcome does turn on rounding,
      use IEEE-754 binary64 ([PrimFloat.float]) as the code does.
    - Dicts are stdpp [gmap]s when only lookup matters and association lists
      when the code depends on insertion order. *)

From Stdlib Require Import QArith Qminmax Qround Qabs ZArith String Ascii List Bool Lia Sorted.
From Stdlib Require PrimFloat.
From stdpp Require Import base gmap strings.
Import ListNotations.

Open Scope string_scope.

(* ------------------------------------------------------------------ *)
(** ** Characters and small string helpers *)

Module Chars.

Definition code (c : ascii) : nat := nat_of_ascii c.

Definition is_digit (c : ascii) : bool :=
  Nat.leb 48 (code c) && Nat.leb (code c) 57.

(** Python's [str.isspace] / regex [\s] on the ASCII range:
    tab, LF, VT, FF, CR, the separators 0x1c-0x1f and space. *)
Definition is_space (c : ascii) : bool :=
  let n := code c in
  (Nat.leb 9 n && Nat.leb n 13) || (Nat.leb 28 n && Nat.leb n 32).

Definition lower (c : ascii) : ascii :=
  let n := code c in
  if Nat.leb 65 n && Nat.leb n 90 then ascii_of_nat (n + 32) else c.

Definition ascii_eqb (a b : ascii) : bool := Ascii.eqb a b.

Definition chars (s : string) : list ascii := list_ascii_of_string s.
Definition of_chars (l : list ascii) : string := string_of_list_ascii l.

Fixpoint drop_while (p : ascii -> bool) (l : list ascii) : list ascii :=
  match l with
  | [] => []
  | c :: t => if p c then drop_while p t else l
  end.

Fixpoint take_while (p : ascii -> bool) (l : list ascii) : list ascii * list ascii :=
  match l with
  | [] => ([], [])
  | c :: t => if p c then let '(a, r) := take_while p t in (c :: a, r) else ([], l)
  end.

(** [str.strip()] *)
Definition strip_l (l : list ascii) : list ascii :=
  rev (drop_while is_space (rev (drop_while is_space l))).

Definition strip (s : string) : string := of_chars (strip_l (chars s)).

(** Literal prefix, exact ([lit]) or under [re.IGNORECASE] on ASCII
    letters ([lit_ci]); both return the rest of the input. *)
Fixpoint lit (p l : list ascii) : option (list ascii) :=
  match p, l with
  | [], _ => Some l
  | a :: p', c :: l' => if ascii_eqb a c then lit p' l' else None
  | _ :: _, [] => None
  end.

Fixpoint lit_ci (p l : list ascii) : option (list ascii) :=
  match p, l with
  | [], _ => Some l
  | a :: p', c :: l' => if ascii_eqb (lower a) (lower c) then lit_ci p' l' else None
  | _ :: _, [] => None
  end.

Definition one_of (cs : list ascii) (l : list ascii) : option (ascii * list ascii) :=
  match l with
  | c :: t => if existsb (ascii_eqb c) cs then Some (c, t) else None
  | [] => None
  end.

(** [\d+] (greedy; the patterns below never need to backtrack into it,
    since what follows it is never a digit). *)
Definition digits1 (l : list ascii) : option (list ascii * list ascii) :=
  let '(d, r) := take_while is_digit l in
  match d with [] => None | _ => Some (d, r) end.

(** [\s*] and [\s+] *)
Definition ws (l : list ascii) : list ascii := drop_while is_space l.
Definition ws1 (l : list ascii) : option (list ascii) :=
  match l with c :: t => if is_space c then Some (ws t) else None | [] => None end.

(** [str.endswith] on a one-character suffix and [str.zfill]. *)
Definition ends_with_char (c : ascii) (s : string) : bool :=
  match rev (chars s) with d :: _ => ascii_eqb c d | [] => false end.

Definition zfill (w : nat) (s : string) : string :=
  of_chars (repeat "0"%char (w - String.length s) ++ chars s).

End Chars.

(* ------------------------------------------------------------------ *)
(** ** Share-text parser (ownership_resolve_online.py, lines 22-122) *)

Module Share.
Import Chars.

Open Scope Q_scope.

Fixpoint digits_value_acc (acc : Z) (d : list ascii) : Z :=
  match d with
  | [] => acc
  | c :: t => digits_value_acc (acc * 10 + Z.of_nat (code c - 48))%Z t
  end.

Definition digits_value (d : list ascii) : Z := digits_value_acc 0 d.

(** A number captured by [\d+(?:[.,;]\d+)?]: integer digits and optional
    fractional digits. *)
Definition num : Type := (list ascii * option (list ascii))%type.

(** [_to_float]: [float(s.replace(",", ".").replace(";", "."))]; on the
    captured texts the conversion always succeeds. *)
Definition to_float (n : num) : Q :=
  let '(i, f) := n in
  match f with
  | None => inject_Z (digits_value i)
  | Some fd => inject_Z (digits_value i)
               + inject_Z (digits_value fd) / inject_Z (10 ^ Z.of_nat (List.length fd))
  end.

(** [\d+(?:[.,;]\d+)?] *)
Definition m_num (l : list ascii) : option (num * list ascii) :=
  '(d1, r) ← digits1 l;
  match one_of [".";",";";"]%char r with
  | Some (_, r') =>
      match digits1 r' with
      | Some (d2, r'') => Some ((d1, Some d2), r'')
      | None => Some ((d1, None), r)
      end
  | None => Some ((d1, None), r)
  end.

(** [%|PROCENTA] (the second alternative under IGNORECASE) *)
Definition m_pct_sign (l : list ascii) : option (list ascii) := lit ["%"%char] l.
Definition m_procenta (l : list ascii) : option (list ascii) := lit_ci (chars "PROCENTA") l.
Definition m_pct_or_procenta (l : list ascii) : option (list ascii) :=
  match m_pct_sign l with Some r => Some r | None => m_procenta l end.

(** [[_ ]?] *)
Definition opt_sep (l : list ascii) : list ascii :=
  match one_of ["_";" "]%char l with Some (_, r) => r | None => l end.

(** PCT_RE = [(\d+(?:[.,;]\d+)?)\s*%] *)
Definition PCT_RE (l : list ascii) : option (num * list ascii) :=
  '(n, r) ← m_num l; r' ← m_pct_sign (ws r); Some (n, r').

(** PROCENTA_RE = [(\d+(?:[.,;]\d+)?)\s*PROCENTA], IGNORECASE *)
Definition PROCENTA_RE (l : list ascii) : option (num * list ascii) :=
  '(n, r) ← m_num l; r' ← m_procenta (ws r); Some (n, r').

(** FRAC_SLASH_RE = [(\d+)\s*/\s*(\d+)] *)
Definition FRAC_SLASH_RE (l : list ascii) : option ((list ascii * list ascii) * list ascii) :=
  '(a, r) ← digits1 l; r1 ← lit ["/"%char] (ws r); '(b, r2) ← digits1 (ws r1);
  Some ((a, b), r2).

(** FRAC_SEMI_RE = [(\d+)\s*;\s*(\d+)\s*(ZLOMEK|TEXT)?], IGNORECASE *)
Definition FRAC_SEMI_RE (l : list ascii) : option ((list ascii * list ascii) * list ascii) :=
  '(a, r) ← digits1 l; r1 ← lit [";"%char] (ws r); '(b, r2) ← digits1 (ws r1);
  let r3 := ws r2 in
  match lit_ci (chars "ZLOMEK") r3 with
  | Some r4 => Some ((a, b), r4)
  | None => match lit_ci (chars "TEXT") r3 with
            | Some r4 => Some ((a, b), r4)
            | None => Some ((a, b), r3)
            end
  end.

(** OBCHODNI_PODIL_FRAC_RE = [obchodni[_ ]?podil\s*:\s*(\d+)\s*[/;]\s*(\d+)] *)
Definition OBCHODNI_PODIL_FRAC_RE (l : list ascii) : option ((list ascii * list ascii) * list ascii) :=
  r0 ← lit_ci (chars "obchodni") l; r1 ← lit_ci (chars "podil") (opt_sep r0);
  r2 ← lit [":"%char] (ws r1); '(a, r3) ← digits1 (ws r2);
  '(_, r4) ← one_of ["/";";"]%char (ws r3); '(b, r5) ← digits1 (ws r4);
  Some ((a, b), r5).

(** OBCHODNI_PODIL_PCT_RE = [obchodni[_ ]?podil\s*:\s*(\d+(?:[.,;]\d+)?)\s*(?:%|PROCENTA)] *)
Definition OBCHODNI_PODIL_PCT_RE (l : list ascii) : option (num * list ascii) :=
  r0 ← lit_ci (chars "obchodni") l; r1 ← lit_ci (chars "podil") (opt_sep r0);
  r2 ← lit [":"%char] (ws r1); '(n, r3) ← m_num (ws r2);
  r4 ← m_pct_or_procenta (ws r3); Some (n, r4).

(** HLASOVACI_PRAVA_PCT_RE = [hlasovaci[_ ]?prava\s*:\s*(\d+(?:[.,;]\d+)?)\s*(?:%|PROCENTA)] *)
Definition HLASOVACI_PRAVA_PCT_RE (l : list ascii) : option (num * list ascii) :=
  r0 ← lit_ci (chars "hlasovaci") l; r1 ← lit_ci (chars "prava") (opt_sep r0);
  r2 ← lit [":"%char] (ws r1); '(n, r3) ← m_num (ws r2);
  r4 ← m_pct_or_procenta (ws r3); Some (n, r4).

(** SPLACENO_FIELD_RE = [splaceno\s*:\s*\d+(?:[.,;]\d+)?\s*PROCENTA] *)
Definition SPLACENO_FIELD_RE (l : list ascii) : option (unit * list ascii) :=
  r0 ← lit_ci (chars "splaceno") l; r1 ← lit [":"%char] (ws r0);
  '(_, r2) ← m_num (ws r1); r3 ← m_procenta (ws r2); Some (tt, r3).

(** EFEKTIVNE_RE = [efektivně\s+(\d+(?:[.,;]\d+)?)\s*%], IGNORECASE;
    "ě" is the UTF-8 pair C4 9B and its upper case "Ě" is C4 9A. *)
Definition EFEKTIVNE_RE (l : list ascii) : option (num * list ascii) :=
  r0 ← lit_ci (chars "efektivn") l;
  r1 ← lit [ascii_of_nat 196] r0;
  '(_, r2) ← one_of [ascii_of_nat 155; ascii_of_nat 154] r1;
  r3 ← ws1 r2; '(n, r4) ← m_num r3; r5 ← m_pct_sign (ws r4); Some (n, r5).

(** [pattern.finditer(s)]: scan left to right; after a match resume at its
    end, otherwise at the next position.  None of the patterns matches the
    empty string, so [length s] steps suffice. *)
Fixpoint finditer_fuel {A} (m : list ascii -> option (A * list ascii))
    (fuel : nat) (l : list ascii) : list A :=
  match fuel with
  | O => []
  | S f =>
      match l with
      | [] => []
      | _ :: t =>
          match m l with
          | Some (a, r) => a :: finditer_fuel m f r
          | None => finditer_fuel m f t
          end
      end
  end.

Definition finditer {A} (m : list ascii -> option (A * list ascii)) (l : list ascii) : list A :=
  finditer_fuel m (List.length l) l.

(** [pattern.search(s)]: the first match. *)
Definition search {A} (m : list ascii -> option (A * list ascii)) (l : list ascii) : option A :=
  head (finditer m l).

(** [pattern.sub("", s)] *)
Fixpoint sub_empty_fuel {A} (m : list ascii -> option (A * list ascii))
    (fuel : nat) (l : list ascii) : list ascii :=
  match fuel with
  | O => l
  | S f =>
      match l with
      | [] => []
      | c :: t =>
          match m l with
          | Some (_, r) => sub_empty_fuel m f r
          | None => c :: sub_empty_fuel m f t
          end
      end
  end.

Definition sub_empty {A} (m : list ascii -> option (A * list ascii)) (l : list ascii) : list ascii :=
  sub_empty_fuel m (List.length l) l.

Definition clamp01 (x : Q) : Q := Qmax 0 (Qmin 1 x).

(** One loop over fraction matches: [if a is not None and b and b != 0:
    total += a / b; found = True]. *)
Definition sum_fracs (ms : list (list ascii * list ascii)) (acc : Q * bool) : Q * bool :=
  fold_left (fun '(t, f) '(a, b) =>
      let bv := inject_Z (digits_value b) in
      if Qeq_bool bv 0 then (t, f) else (t + inject_Z (digits_value a) / bv, true))
    ms acc.

(** One loop over percentage matches: [total += v / 100.0; found = True]. *)
Definition sum_pcts (ms : list num) (acc : Q * bool) : Q * bool :=
  fold_left (fun '(t, _) n => (t + to_float n / 100, true)) ms acc.

Definition layer_result (r : Q * bool) : option Q :=
  if snd r then Some (clamp01 (fst r)) else None.

(** [parse_pct_from_text] (lines 44-109): the first layer that finds a
    value wins. *)
Definition parse_pct_from_text (s0 : string) : option Q :=
  let s1 := strip_l (chars s0) in
  match s1 with
  | [] => None
  | _ =>
    let s := sub_empty SPLACENO_FIELD_RE s1 in
    let l1 := sum_pcts (finditer OBCHODNI_PODIL_PCT_RE s)
                (sum_fracs (finditer OBCHODNI_PODIL_FRAC_RE s) (0, false)) in
    match layer_result l1 with
    | Some v => Some v
    | None =>
      let l2 := sum_pcts (finditer HLASOVACI_PRAVA_PCT_RE s) (0, false) in
      match layer_result l2 with
      | Some v => Some v
      | None =>
        let l3 := sum_fracs (finditer FRAC_SEMI_RE s)
                    (sum_fracs (finditer FRAC_SLASH_RE s) (0, false)) in
        match layer_result l3 with
        | Some v => Some v
        | None =>
          let l4 := sum_pcts (finditer PROCENTA_RE s)
                      (sum_pcts (finditer PCT_RE s) (0, false)) in
          layer_result l4
        end
      end
    end
  end.

(** [parse_effective_from_text] (lines 112-122) *)
Definition parse_effective_from_text (s0 : string) : option Q :=
  match search EFEKTIVNE_RE (strip_l (chars s0)) with
  | Some n => Some (clamp01 (to_float n / 100))
  | None => None
  end.

(** [parse_pct_from_text s] is a value equal to [q]. *)
Definition parses_to (s : string) (q : Q) : bool :=
  match parse_pct_from_text s with Some v => Qeq_bool v q | None => false end.

End Share.

(* ------------------------------------------------------------------ *)
(** ** Registry-ID normalisation *)

Module Ico.
Import Chars.

Definition only_digits (s : string) : list ascii := List.filter is_digit (chars s).

(** [norm_ico] (ares_vr_client.py, lines 19-23):
    [digits = re.sub(r"\D+", "", s or ""); if len(digits) == 7: digits = "0" + digits]. *)
Definition norm_ico (s : string) : string :=
  let digits := only_digits s in
  if Nat.eqb (List.length digits) 7 then of_chars ("0"%char :: digits) else of_chars digits.

(** [_normalize_ico] (ares_vr_extract.py, lines 23-27); [None] and [""] are
    the falsy inputs. *)
Definition _normalize_ico (ico : option string) : option string :=
  match ico with
  | None | Some "" => None
  | Some s =>
      let d := List.filter is_digit (chars (strip s)) in
      match d with
      | [] => None
      | _ => Some (zfill 8 (of_chars d))
      end
  end.

Definition all_digits (s : string) : Prop := Forall (fun c => is_digit c = true) (chars s).

End Ico.

(* ------------------------------------------------------------------ *)
(** ** Owner extractor (ares_vr_extract.py) *)

Module Extract.
Import Chars.

(** The consumed subset of the registry payload (spec section 6), typed.
    Absent keys and JSON [null] are [None]; a present JSON object is
    [Some _] (all objects the code tests for truthiness are non-empty in the
    registry data); scalar leaves are strings. *)
Record Obnos := mkObnos { typObnos : option string; hodnota : option string }.

Record Podil := mkPodil {
  p_datumVymazu : option string;
  vklad : option Obnos;
  velikostPodilu : option Obnos;
  splaceni : option Obnos }.

Record FyzickaOsoba := mkFO {
  titulPredJmenem : option string; jmeno : option string; prijmeni : option string }.

Record PravnickaOsoba := mkPO {
  po_ico : option string; po_obchodniJmeno : option string; po_nazev : option string }.

Record Osoba := mkOsoba {
  fyzickaOsoba : option FyzickaOsoba; pravnickaOsoba : option PravnickaOsoba }.

Record Spolecnik := mkSpolecnik {
  sp_datumVymazu : option string; sp_datumZapisu : option string;
  sp_osoba : option Osoba; sp_podil : list Podil }.

Record Blok := mkBlok {
  b_datumVymazu : option string; b_nazevOrganu : option string; b_spolecnik : list Spolecnik }.

Record Clen := mkClen {
  c_datumVymazu : option string;
  c_fyzickaOsoba : option FyzickaOsoba; c_pravnickaOsoba : option PravnickaOsoba }.

Record Org := mkOrg {
  o_datumVymazu : option string; o_nazevOrganu : option string; o_clenoveOrganu : list Clen }.

Record NameItem := mkNameItem { n_hodnota : option string; n_datumVymazu : option string }.

Record Zaznam := mkZaznam {
  primarniZaznam : option bool;
  obchodniJmeno : list NameItem;
  spolecnici : list Blok;
  akcionari : list Org }.

Record Payload := mkPayload {
  icoId : option string; zaznamy : list Zaznam;
  _error : option string; _url : option string }.

Inductive Kind := PERSON | COMPANY.

(** [@dataclass Owner] *)
Record Owner := mkOwner {
  kind : Kind; name : string; ico : option string;
  share_pct : option Q; share_raw : option string; label : string }.

(** Truthiness of an optional string and Python's [x or d]. *)
Definition truthy (o : option string) : bool :=
  match o with Some "" | None => false | Some _ => true end.
Definition or_else (o : option string) (d : string) : string :=
  match o with Some "" | None => d | Some s => s end.

(** [_pick_primary_or_record]: [primarniZaznam is True], else the first. *)
Definition _pick_primary_or_record (zs : list Zaznam) : option Zaznam :=
  match zs with
  | [] => None
  | z0 :: _ =>
      match List.filter (fun z => match primarniZaznam z with Some true => true | _ => false end) zs with
      | p :: _ => Some p
      | [] => Some z0
      end
  end.

(** [_is_active_item]: [not item.get("datumVymazu")] *)
Definition _is_active_item (datumVymazu : option string) : bool := negb (truthy datumVymazu).

(** Python [float(t)] on a decimal literal: surrounding whitespace, an
    optional sign, digits with an optional point.  The exponent, underscore,
    [inf] and [nan] spellings are not modelled and give [None]. *)
Definition py_float (t : list ascii) : option Q :=
  let t := strip_l t in
  let '(neg, t) := match t with
                   | "-"%char :: r => (true, r) | "+"%char :: r => (false, r) | _ => (false, t) end in
  let '(i, r) := take_while is_digit t in
  let v :=
    match r with
    | [] => match i with [] => None | _ => Some (inject_Z (Share.digits_value i)) end
    | "."%char :: r' =>
        let '(f, r'') := take_while is_digit r' in
        match r'', i, f with
        | _ :: _, _, _ => None
        | [], [], [] => None
        | [], _, _ => Some (inject_Z (Share.digits_value i)
                        + inject_Z (Share.digits_value f) / inject_Z (10 ^ Z.of_nat (List.length f)))%Q
        end
    | _ => None
    end in
  match v with Some q => Some (if neg then - q else q)%Q | None => None end.

(** [_to_float] of the extractor: replace [,] and [;] by [.] and convert. *)
Definition _to_float (s : string) : option Q :=
  py_float (map (fun c => if ascii_eqb c "," || ascii_eqb c ";" then "."%char else c) (chars s)).

Definition clamp100 (x : Q) : Q := Qmax 0 (Qmin 100 x).

Definition sum_fracs100 (ms : list (list ascii * list ascii)) (acc : Q * bool) : Q * bool :=
  fold_left (fun '(t, f) '(a, b) =>
      let bv := inject_Z (Share.digits_value b) in
      if Qeq_bool bv 0 then (t, f) else (t + inject_Z (Share.digits_value a) / bv * 100, true)%Q)
    ms acc.

Definition sum_pcts100 (ms : list Share.num) (acc : Q * bool) : Q * bool :=
  fold_left (fun '(t, _) n => (t + Share.to_float n, true)%Q) ms acc.

Definition layer_result100 (r : Q * bool) : option Q :=
  if snd r then Some (clamp100 (fst r)) else None.

(** [_parse_pct_from_text] of the extractor (lines 58-123): the same four
    layers as [Share.parse_pct_from_text], in percent and clamped to 100. *)
Definition _parse_pct_from_text (s0 : string) : option Q :=
  let s1 := strip_l (chars s0) in
  match s1 with
  | [] => None
  | _ =>
    let s := Share.sub_empty Share.SPLACENO_FIELD_RE s1 in
    let l1 := sum_pcts100 (Share.finditer Share.OBCHODNI_PODIL_PCT_RE s)
                (sum_fracs100 (Share.finditer Share.OBCHODNI_PODIL_FRAC_RE s) (0%Q, false)) in
    match layer_result100 l1 with
    | Some v => Some v
    | None =>
      let l2 := sum_pcts100 (Share.finditer Share.HLASOVACI_PRAVA_PCT_RE s) (0%Q, false) in
      match layer_result100 l2 with
      | Some v => Some v
      | None =>
        let l3 := sum_fracs100 (Share.finditer Share.FRAC_SEMI_RE s)
                    (sum_fracs100 (Share.finditer Share.FRAC_SLASH_RE s) (0%Q, false)) in
        match layer_result100 l3 with
        | Some v => Some v
        | None =>
          let l4 := sum_pcts100 (Share.finditer Share.PROCENTA_RE s)
                      (sum_pcts100 (Share.finditer Share.PCT_RE s) (0%Q, false)) in
          layer_result100 l4
        end
      end
    end
  end.

(** One part of [_compose_share_raw]: [f"{key}:{h} {t or ''}".strip()]. *)
Definition compose_part (key : string) (o : option Obnos) : list string :=
  match o with
  | Some v =>
      match hodnota v with
      | Some h => [strip (key ++ ":" ++ h ++ " " ++ or_else (typObnos v) "")]
      | None => []
      end
  | None => []
  end.

Fixpoint join (sep : string) (l : list string) : string :=
  match l with
  | [] => ""
  | [x] => x
  | x :: t => x ++ sep ++ join sep t
  end.

(** [_compose_share_raw] (lines 126-141) *)
Definition _compose_share_raw (p : Podil) : string :=
  join "; " (compose_part "vklad" (vklad p) ++ compose_part "velikost" (velikostPodilu p)%list
             ++ compose_part "splaceno" (splaceni p))%list.

Definition upper (c : ascii) : ascii :=
  let n := code c in
  if Nat.leb 97 n && Nat.leb n 122 then ascii_of_nat (n - 32) else c.

(** [s[:n]] counted in code points of the UTF-8 encoding. *)
Fixpoint take_codepoints (n : nat) (l : list ascii) : list ascii :=
  match l with
  | [] => []
  | c :: t =>
      if Nat.leb 128 (code c) && Nat.leb (code c) 191 then c :: take_codepoints n t
      else match n with O => [] | S n' => c :: take_codepoints n' t end
  end.

(** [_parse_share_from_podil_list] (lines 144-187) *)
Definition _parse_share_from_podil_list (podily : list Podil) : option Q * string :=
  let step (acc : Q * bool * list string) (p : Podil) :=
    let '(pct_sum, found, raws) := acc in
    if negb (_is_active_item (p_datumVymazu p)) then acc else
    let raws := (raws ++ [_compose_share_raw p])%list in
    let typ := map upper (chars (or_else (match velikostPodilu p with
                                          | Some vp => typObnos vp | None => None end) "")) in
    match match velikostPodilu p with Some vp => hodnota vp | None => None end with
    | None => (pct_sum, found, raws)
    | Some text_val =>
        if String.eqb (of_chars typ) "PROCENTA" then
          match _to_float text_val with
          | Some v => ((pct_sum + v)%Q, true, raws)
          | None => match _parse_pct_from_text text_val with
                    | Some v => ((pct_sum + v)%Q, true, raws)
                    | None => (pct_sum, found, raws)
                    end
          end
        else
          match _parse_pct_from_text text_val with
          | Some v => ((pct_sum + v)%Q, true, raws)
          | None => (pct_sum, found, raws)
          end
    end in
  let '(pct_sum, found, raws) := fold_left step podily (0%Q, false, []) in
  let raw := of_chars (take_codepoints 1000
               (chars (join "; " (List.filter (fun r => negb (String.eqb r "")) raws)))) in
  ((if found then Some (clamp100 pct_sum) else None), raw).

(** [_person_name] (lines 190-198) *)
Definition _person_name (f : FyzickaOsoba) : string :=
  let parts := List.filter (fun s => negb (String.eqb s ""))
                 (map (fun o => or_else o "") [titulPredJmenem f; jmeno f; prijmeni f]) in
  or_else (Some (strip (join " " parts))) "Fyzická osoba (neznámá)".

(** Name of a legal person:
    [(pos.get("obchodniJmeno") or pos.get("nazev") or f"Společnost (IČO {o_ico or '?'})").strip()] *)
Definition company_name (p : PravnickaOsoba) (o_ico : option string) : string :=
  strip (or_else (po_obchodniJmeno p)
           (or_else (po_nazev p) ("Společnost (IČO " ++ or_else o_ico "?" ++ ")"))).

(** An entry of the [latest] dict: label, kind, name, ico, the
    [spolecnik] record and its raw [datumZapisu]. *)
Record Latest := mkLatest {
  l_label : string; l_kind : Kind; l_name : string; l_ico : option string;
  l_spolecnik : Spolecnik; l_datumZapisu : option string }.

(** The identity part of the [latest] key (lines 251-266):
    [f"COMPANY:{o_ico or o_name}"] for a legal person and
    [f"PERSON:{o_name}"] for a natural person. *)
Definition owner_ident (k : Kind) (nm : string) (i : option string) : string :=
  match k with
  | COMPANY => "COMPANY:" ++ or_else i nm
  | PERSON => "PERSON:" ++ nm
  end.

Section Extractor.

(** [datetime.fromisoformat] (through [_parse_date]) and [datetime.min]:
    dates are compared as integers. *)
Variable fromisoformat : string -> option Z.
Variable datetime_min : Z.

(** [_parse_date] (lines 31-37) *)
Definition _parse_date (s : option string) : option Z :=
  match s with Some "" | None => None | Some x => fromisoformat x end.

(** Python dict lookup / assignment on the insertion-ordered [latest] dict
    keyed by [(label, ident)]. *)
Fixpoint assoc_get (k : string * string) (d : list ((string * string) * Latest)) : option Latest :=
  match d with
  | [] => None
  | (k', v) :: t => if String.eqb (fst k) (fst k') && String.eqb (snd k) (snd k') then Some v
                    else assoc_get k t
  end.

Fixpoint assoc_set (k : string * string) (v : Latest) (d : list ((string * string) * Latest))
    : list ((string * string) * Latest) :=
  match d with
  | [] => [(k, v)]
  | (k', v') :: t => if String.eqb (fst k) (fst k') && String.eqb (snd k) (snd k') then (k', v) :: t
                     else (k', v') :: assoc_set k v t
  end.

(** The body of the inner [for sp in blok["spolecnik"]] loop (lines 244-279). *)
Definition latest_step (label : string) (latest : list ((string * string) * Latest)) (sp : Spolecnik)
    : list ((string * string) * Latest) :=
  if negb (_is_active_item (sp_datumVymazu sp)) then latest else
  let fos := match sp_osoba sp with Some o => fyzickaOsoba o | None => None end in
  let pos := match sp_osoba sp with Some o => pravnickaOsoba o | None => None end in
  let who :=
    match pos, fos with
    | Some p, _ =>
        let o_ico := Ico._normalize_ico (po_ico p) in
        let o_name := company_name p o_ico in
        Some (COMPANY, o_name, o_ico, "COMPANY:" ++ or_else o_ico o_name)
    | None, Some f =>
        let o_name := _person_name f in
        Some (PERSON, o_name, None, "PERSON:" ++ o_name)
    | None, None => None
    end in
  match who with
  | None => latest
  | Some (k, o_name, o_ico, ident) =>
      let dz := _parse_date (sp_datumZapisu sp) in
      let key := (label, ident) in
      let newer :=
        match assoc_get key latest with
        | None => true
        | Some prev =>
            Z.ltb (default datetime_min (_parse_date (l_datumZapisu prev)))
                  (default datetime_min dz)
        end in
      if newer
      then assoc_set key (mkLatest label k o_name o_ico sp (sp_datumZapisu sp)) latest
      else latest
  end.

(** The shareholder ("AKCIONÁŘI") loop (lines 298-316): every active member
    of every active section becomes an owner with [share_pct = 100.0]. *)
Definition akcionari_owners (orgs : list Org) : list Owner :=
  flat_map (fun org =>
    if negb (_is_active_item (o_datumVymazu org)) then [] else
    let lbl := or_else (o_nazevOrganu org) "Akcionáři" in
    flat_map (fun a =>
      if negb (_is_active_item (c_datumVymazu a)) then [] else
      match c_pravnickaOsoba a, c_fyzickaOsoba a with
      | Some p, _ =>
          let o_ico := Ico._normalize_ico (po_ico p) in
          [mkOwner COMPANY (company_name p o_ico) o_ico (Some 100%Q) None lbl]
      | None, Some f => [mkOwner PERSON (_person_name f) None (Some 100%Q) None lbl]
      | None, None => []
      end) (o_clenoveOrganu org)) orgs.

(** The member ("SPOLEČNÍCI") part (lines 236-296). *)
Definition spolecnici_owners (bloky : list Blok) : list Owner :=
  let latest :=
    fold_left (fun latest blok =>
      if negb (_is_active_item (b_datumVymazu blok)) then latest else
      let lbl := or_else (b_nazevOrganu blok) "Společníci" in
      fold_left (latest_step lbl) (b_spolecnik blok) latest) bloky [] in
  map (fun '(_, r) =>
    let '(share, raw) := _parse_share_from_podil_list (sp_podil (l_spolecnik r)) in
    mkOwner (l_kind r) (l_name r) (l_ico r) share
      (match raw with "" => None | _ => Some raw end) (l_label r)) latest.

(** [extract_current_owners] (lines 211-318): (company_ico, company_name, owners). *)
Definition extract_current_owners (p : Payload) : string * string * list Owner :=
  let company_ico := Ico._normalize_ico (Some (strip (or_else (icoId p) ""))) in
  match _pick_primary_or_record (zaznamy p) with
  | None => (or_else company_ico "", "Neznámý subjekt", [])
  | Some z =>
      let oj := obchodniJmeno z in
      let oj_active := List.filter (fun x => _is_active_item (n_datumVymazu x)) oj in
      let nm :=
        match rev oj_active, rev oj with
        | x :: _, _ => or_else (n_hodnota x) "Neznámý subjekt"
        | [], x :: _ => or_else (n_hodnota x) "Neznámý subjekt"
        | [], [] => "Neznámý subjekt"
        end in
      let owners := (spolecnici_owners (spolecnici z) ++ akcionari_owners (akcionari z))%list in
      (or_else company_ico "", or_else (Some nm) "", owners)
  end.

End Extractor.

End Extract.

(* ------------------------------------------------------------------ *)
(** ** Number formatting *)

Module Fmt.

Fixpoint nat_digits_fuel (fuel n : nat) (acc : string) : string :=
  match fuel with
  | O => acc
  | S f =>
      let acc' := String (ascii_of_nat (48 + n mod 10)) acc in
      if Nat.ltb n 10 then acc' else nat_digits_fuel f (n / 10) acc'
  end.

(** [str(n)] for a natural number. *)
Definition nat_to_string (n : nat) : string := nat_digits_fuel (S n) n "".

(** Round half to even to an integer, for a non-negative rational. *)
Definition round_half_even (q : Q) : Z :=
  let n := Qfloor q in
  let r := (q - inject_Z n)%Q in
  if Qlt_le_dec (1 # 2) r then (n + 1)%Z
  else if Qeq_bool r (1 # 2) then (if Z.even n then n else n + 1)%Z
  else n.

(** [f"{x:.2f}"]: two decimals, half-even rounding of the exact value. *)
Definition fmt2 (x : Q) : string :=
  let neg := Qlt_le_dec x 0 in
  let n := Z.to_nat (round_half_even (Qabs x * 100)) in
  let frac := n mod 100 in
  (if neg then "-" else "") ++ nat_to_string (n / 100) ++ "."
  ++ (if Nat.ltb frac 10 then "0" else "") ++ nat_to_string frac.

End Fmt.

(* ------------------------------------------------------------------ *)
(** ** Tree resolver (ownership_resolve_online.py, lines 14-287) *)

Module Resolve.
Import Chars Extract.

(** [@dataclass NodeLine] *)
Record NodeLine := mkLine {
  depth : Z; nl_label : string; text : string; effective_pct : option Q }.

(** A structured warning [{"kind", "ico", "name", "text"}]. *)
Record Warning := mkWarning { w_kind : string; w_ico : string; w_name : string; w_text : string }.

(** The two lists the walker appends to. *)
Definition State : Type := (list NodeLine * list Warning)%type.

Definition add_line (st : State) (l : NodeLine) : State := ((fst st ++ [l])%list, snd st).
Definition add_warning (st : State) (w : Warning) : State := (fst st, (snd st ++ [w])%list).

(** [b] appended after [a]: the walk only ever appends. *)
Definition app_state (a b : State) : State := ((fst a ++ fst b)%list, (snd a ++ snd b)%list).

Definition trunc_text : string := "⚠️ Překročena max hloubka".
Definition trunc_line (d : Z) : NodeLine := mkLine d "" trunc_text None.
Definition error_text (ico err : string) : string :=
  "⚠️ Nelze načíst ARES VR pro " ++ ico ++ ": " ++ err.
Definition header_text (c_name c_ico : string) : string := c_name ++ " (IČO " ++ c_ico ++ ")".
Definition unresolved_text (c_name c_ico : string) : string :=
  "⚠️ Nepodařilo se dohledat vlastníka v OR pro " ++ c_name ++ " (IČO " ++ c_ico ++ ")".
Definition manual_label : string := "Manuálně doplněno".

(** [by_label.setdefault(o.label, []).append(o)] over the owners:
    groups in first-seen label order. *)
Fixpoint group_add (o : Owner) (g : list (string * list Owner)) : list (string * list Owner) :=
  match g with
  | [] => [(label o, [o])]
  | (l, os) :: t => if String.eqb l (label o) then (l, (os ++ [o])%list) :: t
                    else (l, os) :: group_add o t
  end.

Definition group_by_label (owners : list Owner) : list (string * list Owner) :=
  fold_left (fun g o => group_add o g) owners [].

(** The local share (lines 210-218) and the effective override
    (lines 220-223) of an owner. *)
Definition local_share (o : Owner) : option Q :=
  match share_pct o with
  | Some p => Some (p / 100)%Q
  | None => if truthy (share_raw o) then Share.parse_pct_from_text (or_else (share_raw o) "")
            else None
  end.

Definition eff_share (o : Owner) : option Q :=
  Share.parse_effective_from_text (or_else (share_raw o) "").

Definition is_company_owner (o : Owner) : bool :=
  match kind o with COMPANY => truthy (ico o) | PERSON => false end.

(** The body of [for o in lst] (lines 209-284) up to the recursive call:
    the owner line, and for a company owner the id and multiplier of the
    recursive [walk]. *)
Definition owner_line (d : Z) (lbl : string) (pm : Q) (o : Owner)
    : NodeLine * option (string * Q) :=
  let ls := local_share o in
  let es := eff_share o in
  if is_company_owner o then
    let '(pct_txt, eff_pct) :=
      match ls, es with
      | Some s, _ => (Fmt.fmt2 (s * 100)%Q ++ "%", Some (pm * s * 100)%Q)
      | None, Some e => (or_else (share_raw o) "?", Some (e * 100)%Q)
      | None, None => (or_else (share_raw o) "?", None)
      end in
    let next_mult :=
      match ls, es with
      | Some s, _ => (pm * s)%Q
      | None, Some e => e
      | None, None => pm
      end in
    (mkLine (d + 2) lbl (name o ++ " — " ++ pct_txt ++ " (IČO " ++ or_else (ico o) "" ++ ")") eff_pct,
     Some (or_else (ico o) "", next_mult))
  else
    match ls, es with
    | Some s, _ =>
        let eff_pct := (pm * s * 100)%Q in
        (mkLine (d + 2) lbl (name o ++ " — " ++ Fmt.fmt2 (s * 100)%Q ++ "% (efektivně "
                              ++ Fmt.fmt2 eff_pct ++ "%)") (Some eff_pct), None)
    | None, Some e =>
        let base_txt := match share_pct o with
                        | Some p => Fmt.fmt2 p ++ "%"
                        | None => or_else (share_raw o) "?"
                        end in
        (mkLine (d + 2) lbl (name o ++ " — " ++ base_txt ++ " (efektivně "
                              ++ Fmt.fmt2 (e * 100)%Q ++ "%)") (Some (e * 100)%Q), None)
    | None, None =>
        let raw := if truthy (share_raw o) then " — " ++ or_else (share_raw o) "" else "" in
        (mkLine (d + 2) lbl (name o ++ raw) None, None)
    end.

Fixpoint fold_opt {A} (g : State -> A -> option State) (l : list A) (st : State) : option State :=
  match l with
  | [] => Some st
  | x :: t => match g st x with Some st' => fold_opt g t st' | None => None end
  end.

Section Walker.

Variable fromisoformat : string -> option Z.
Variable datetime_min : Z.

(** [client.get_vr] as seen by one resolve call: the payload for an id, or
    [None] when the call raises (retries exhausted). *)
Variable get_vr : string -> option Payload.
Variable max_depth : Z.
(** [manual_overrides]: target ico -> [(owner_ico, share 0..1)]. *)
Variable manual_overrides : list (string * list (string * Q)).

Definition extract (p : Payload) : string * string * list Owner :=
  extract_current_owners fromisoformat datetime_min p.

Fixpoint dict_get {V} (k : string) (d : list (string * V)) (dflt : V) : V :=
  match d with
  | [] => dflt
  | (k', v) :: t => if String.eqb k k' then v else dict_get k t dflt
  end.

(** One manually added owner (lines 172-190); a raising [get_vr] is
    swallowed by the [try]. *)
Definition manual_owner (ov : string * Q) : Owner :=
  let '(owner_ico, owner_share) := ov in
  let dflt := "Společnost (IČO " ++ zfill 8 owner_ico ++ ")" in
  let nm := match get_vr owner_ico with
            | Some p2 => let '(_, n2, _) := extract p2 in
                         if String.eqb n2 "" then dflt else n2
            | None => dflt
            end in
  mkOwner COMPANY nm (Some (zfill 8 owner_ico)) (Some (owner_share * 100)%Q)
    (Some ("velikost:" ++ Fmt.fmt2 (owner_share * 100)%Q ++ " PROCENTA")) manual_label.

(** Registry owners followed by the manual ones (lines 169-194, APPEND mode). *)
Definition merge_owners (c_ico : string) (owners : list Owner) : list Owner :=
  let manual_owners := map manual_owner (dict_get c_ico manual_overrides []) in
  match manual_owners with
  | [] => owners
  | _ => (owners ++ manual_owners)%list
  end.

(** [walk] (lines 143-284).  [fuel] bounds the recursion; the depth guard
    stops every branch first when [fuel] is large enough (see
    [walk_fuel_stable]).  [None] is an exception escaping [walk]. *)
Fixpoint walk (fuel : nat) (ico : string) (d : Z) (pm : Q) (st : State) : option State :=
  match fuel with
  | O => Some st
  | S f =>
    if Z.ltb max_depth d then Some (add_line st (trunc_line d)) else
    match get_vr ico with
    | None => None
    | Some payload =>
      if truthy (_error payload) then
        let err_txt := error_text ico (or_else (_error payload) "") in
        Some (add_warning (add_line st (mkLine d "" err_txt None))
                (mkWarning "error" ico "" err_txt))
      else
        let '(c_ico, c_name, owners) := extract payload in
        let st1 := add_line st (mkLine d "" (header_text c_name c_ico)
                                  (if Z.eqb d 0 then Some (pm * 100)%Q else None)) in
        let owners := merge_owners c_ico owners in
        let st2 := match owners with
                   | [] => add_warning st1 (mkWarning "unresolved" c_ico c_name
                                              (unresolved_text c_name c_ico))
                   | _ => st1
                   end in
        fold_opt (fun st '(lbl, lst) =>
            fold_opt (fun st o =>
                let '(ln, child) := owner_line d lbl pm o in
                let st := add_line st ln in
                match child with
                | Some (cico, nm) => walk f cico (d + 3) nm st
                | None => Some st
                end) lst (add_line st (mkLine (d + 1) lbl (lbl ++ ":") None)))
          (group_by_label owners) st2
    end
  end.

(** [resolve_tree_online] (lines 125-287). *)
Definition resolve_tree_online (root_ico : string) : option State :=
  walk (S (Z.to_nat (max_depth + 3))) root_ico 0 1 ([], []).

(** The nodes a walk started at [(ico0, d0, m0)] descends to: id, depth,
    parent multiplier, and the local shares of the company owners on the
    path from the start. *)
Inductive Reached (ico0 : string) (d0 : Z) (m0 : Q)
    : string -> Z -> Q -> list (option Q) -> Prop :=
| reached_root : Reached ico0 d0 m0 ico0 d0 m0 []
| reached_child ico d m path p c_ico c_name owners o cico nm :
    Reached ico0 d0 m0 ico d m path ->
    Z.ltb max_depth d = false ->
    get_vr ico = Some p -> truthy (_error p) = false ->
    extract p = (c_ico, c_name, owners) ->
    In o (merge_owners c_ico owners) ->
    snd (owner_line d (label o) m o) = Some (cico, nm) ->
    Reached ico0 d0 m0 cico (d + 3) nm (path ++ [local_share o])%list.

(** The five kinds of trace line a reached node emits: the truncation
    notice, the error line, the company header, a label line and an owner
    line. *)
Inductive LineOf (ico0 : string) (d0 : Z) (m0 : Q) : NodeLine -> Prop :=
| line_trunc ico d m path :
    Reached ico0 d0 m0 ico d m path -> Z.ltb max_depth d = true ->
    LineOf ico0 d0 m0 (trunc_line d)
| line_error ico d m path p :
    Reached ico0 d0 m0 ico d m path -> Z.ltb max_depth d = false ->
    get_vr ico = Some p -> truthy (_error p) = true ->
    LineOf ico0 d0 m0 (mkLine d "" (error_text ico (or_else (_error p) "")) None)
| line_header ico d m path p c_ico c_name owners :
    Reached ico0 d0 m0 ico d m path -> Z.ltb max_depth d = false ->
    get_vr ico = Some p -> truthy (_error p) = false ->
    extract p = (c_ico, c_name, owners) ->
    LineOf ico0 d0 m0 (mkLine d "" (header_text c_name c_ico)
                         (if Z.eqb d 0 then Some (m * 100)%Q else None))
| line_label ico d m path p c_ico c_name owners o :
    Reached ico0 d0 m0 ico d m path -> Z.ltb max_depth d = false ->
    get_vr ico = Some p -> truthy (_error p) = false ->
    extract p = (c_ico, c_name, owners) ->
    In o (merge_owners c_ico owners) ->
    LineOf ico0 d0 m0 (mkLine (d + 1) (label o) (label o ++ ":") None)
| line_owner ico d m path p c_ico c_name owners o :
    Reached ico0 d0 m0 ico d m path -> Z.ltb max_depth d = false ->
    get_vr ico = Some p -> truthy (_error p) = false ->
    extract p = (c_ico, c_name, owners) ->
    In o (merge_owners c_ico owners) ->
    LineOf ico0 d0 m0 (fst (owner_line d (label o) m o)).

(** A warning explained by a reached node: either the error warning of a
    node whose payload carries [_error], with that node's error line in
    [ls], or the unresolved warning of a node whose merged owner list is
    empty, with that node's header line in [ls]. *)
Definition warn_ok (ico0 : string) (d0 : Z) (m0 : Q) (ls : list NodeLine) (w : Warning) : Prop :=
  exists ico d m path p,
    Reached ico0 d0 m0 ico d m path /\ (d <= max_depth)%Z /\ get_vr ico = Some p /\
    ((truthy (_error p) = true
      /\ w = mkWarning "error" ico "" (error_text ico (or_else (_error p) ""))
      /\ In (mkLine d "" (w_text w) None) ls)
     \/ (exists c_ico c_name owners,
          truthy (_error p) = false /\ extract p = (c_ico, c_name, owners)
          /\ merge_owners c_ico owners = []
          /\ w = mkWarning "unresolved" c_ico c_name (unresolved_text c_name c_ico)
          /\ In (mkLine d "" (header_text c_name c_ico)
                   (if Z.eqb d 0 then Some (m * 100)%Q else None)) ls)).


(** The ids one resolve call looks up with [client.get_vr]: every node it
    reaches within [max_depth], and the ids of the manual owners of such a
    node whose record was fetched without error (lines 169-179). *)
Inductive Queried (ico0 : string) (d0 : Z) (m0 : Q) : string -> Prop :=
| queried_node ico d m path :
    Reached ico0 d0 m0 ico d m path -> Z.ltb max_depth d = false ->
    Queried ico0 d0 m0 ico
| queried_manual ico d m path p c_ico c_name owners oi os :
    Reached ico0 d0 m0 ico d m path -> Z.ltb max_depth d = false ->
    get_vr ico = Some p -> truthy (_error p) = false ->
    extract p = (c_ico, c_name, owners) ->
    In (oi, os) (dict_get c_ico manual_overrides []) ->
    Queried ico0 d0 m0 oi.

End Walker.

(** Where a warning sits in the trace: an "error" warning right after the
    node's error line, which carries its text; an "unresolved" warning
    right after the header line of the node it names. *)
Definition anchored (l : NodeLine) (w : Warning) : Prop :=
  (w_kind w = "error" /\ l = mkLine (depth l) "" (w_text w) None)
  \/ (w_kind w = "unresolved" /\ text l = header_text (w_name w) (w_ico w)).

(** The warnings are in walk order: the [i]-th warning is anchored at the
    trace line of position [pos_i], and the positions strictly increase. *)
Definition in_walk_order (st : State) : Prop :=
  exists pos : list nat, StronglySorted lt pos
    /\ Forall2 (fun k w => exists l, nth_error (fst st) k = Some l /\ anchored l w) pos (snd st).
End Resolve.

(* ------------------------------------------------------------------ *)
(** ** Registry client (ares_vr_client.py, lines 64-161) *)

Module Client.
Import Extract.

(** An HTTP exchange: the status code and the body as parsed by [r.json()]
    ([None] when it raises); or a transport exception of [requests.get]. *)
Inductive Response :=
| RespHTTP (status : Z) (body : option Payload)
| RespExc.

(** Client state: the cache table (ico -> payload and [fetched_at]) and the
    number of HTTP requests issued so far, which also serves as the clock
    stamped into [fetched_at].  The cache stores [json.dumps(payload)] and
    returns [json.loads] of it; the round trip is the identity on payloads. *)
Record CState := mkCState { cache : gmap string (Payload * nat); requests : nat }.

Definition ARES_VR_URL (ico : string) : string :=
  "https://ares.gov.cz/ekonomicke-subjekty-v-be/rest/ekonomicke-subjekty-vr/" ++ ico.

Section Client.

(** The [k]-th HTTP request issued by the client gets the response [net k]. *)
Variable net : nat -> Response.
(** [cfg.max_retries] (default 4) *)
Variable max_retries : nat.

(** [_cache_get] and [_cache_put] (lines 138-161): an upsert of the row. *)
Definition _cache_get (st : CState) (ico : string) : option Payload :=
  option_map fst (cache st !! ico).
Definition _cache_put (st : CState) (ico : string) (p : Payload) : CState :=
  mkCState (<[ico := (p, requests st)]> (cache st)) (requests st).

Definition error_record (status : Z) (url : string) : Payload :=
  mkPayload None [] (Some (if Z.eqb status 400 then "ARES HTTP 400" else "ARES HTTP 404"))
    (Some url).

(** The retry loop [for attempt in range(max_retries + 1)] (lines 101-134);
    [None] is the final [raise RuntimeError]. Sleeping is not modelled. *)
Fixpoint attempts (n : nat) (ico : string) (st : CState) : option Payload * CState :=
  match n with
  | O => (None, st)
  | S n' =>
      let r := net (requests st) in
      let st := mkCState (cache st) (S (requests st)) in
      match r with
      | RespHTTP status body =>
          if Z.eqb status 200 then
            (* [r.json()] raising is caught by [except Exception]: retry *)
            match body with
            | Some p => (Some p, _cache_put st ico p)
            | None => attempts n' ico st
            end
          else if Z.eqb status 400 || Z.eqb status 404 then
            let p := error_record status (ARES_VR_URL ico) in (Some p, _cache_put st ico p)
          else attempts n' ico st
      | RespExc => attempts n' ico st
      end
  end.

(** [AresVrClient.get_vr] (lines 84-134). *)
Definition get_vr (st : CState) (ico0 : string) (force_refresh : bool) : option Payload * CState :=
  let ico := Ico.norm_ico ico0 in
  match (if force_refresh then None else _cache_get st ico) with
  | Some cached => (Some cached, st)
  | None => attempts (S max_retries) ico st
  end.

End Client.

(** What one response makes of the attempt (lines 104-130): a parsed
    200 body, or the error record of a 400 or 404, ends the loop with that
    payload; [None] (a transport exception, a 200 whose [r.json()] raises,
    any other status, 429 and 5xx included) goes on to the next attempt. *)
Definition answer (ico : string) (resp : Response) : option Payload :=
  match resp with
  | RespExc => None
  | RespHTTP status body =>
      if Z.eqb status 200 then body
      else if Z.eqb status 400 || Z.eqb status 404 then Some (error_record status (ARES_VR_URL ico))
      else None
  end.

End Client.

(* ------------------------------------------------------------------ *)
(** ** UBO evaluator (app.py) *)

Module App.
Import Chars.

(** [RE_COMPANY_HEADER = ^(?P<name>.+)\s+\(IČO\s+(?P<ico>\d{7,8})\)\s*$]:
    [header_tail] is everything after [.+]. *)
Definition ico_paren (l : list ascii) : option (unit * list ascii) :=
  r0 ← lit (chars "(IČO") l; r1 ← ws1 r0;
  let '(d, r2) := take_while is_digit r1 in
  if Nat.leb 7 (List.length d) && Nat.leb (List.length d) 8
  then r3 ← lit [")"%char] r2; Some (tt, r3) else None.

Definition header_tail (l : list ascii) : bool :=
  match ws1 l with
  | Some r => match ico_paren r with Some (_, r') => match ws r' with [] => true | _ => false end
                                   | None => false end
  | None => false
  end.

(** [.+] takes at least one character other than a newline. *)
Fixpoint header_scan (l : list ascii) : bool :=
  match l with
  | [] => false
  | c :: t => if ascii_eqb c "010"%char then false else header_tail t || header_scan t
  end.

Definition RE_COMPANY_HEADER_match (t : string) : bool := header_scan (chars t).

(** [ICO_IN_LINE.search(t) is not None] *)
Definition ICO_IN_LINE_search (t : string) : bool :=
  match Share.search ico_paren (chars t) with Some _ => true | None => false end.

(** [DASH_SPLIT = \s+[—–-]\s+]; [DASH_SPLIT.split(t, maxsplit=1)[0]]. *)
Definition dash (l : list ascii) : option (list ascii) :=
  r ← ws1 l;
  r' ← (match lit (chars "—") r with
        | Some x => Some x
        | None => match lit (chars "–") r with Some x => Some x | None => lit ["-"%char] r end
        end);
  ws1 r'.

Fixpoint split_first (l : list ascii) : list ascii :=
  match l with
  | [] => []
  | c :: t => match dash l with Some _ => [] | None => c :: split_first t end
  end.

(** [re.search(r"efektivně\s+(\d+(?:[.,;]\d+)?)\s*%", t, re.IGNORECASE)] *)
Definition efektivne_search (t : string) : option Share.num :=
  Share.search Share.EFEKTIVNE_RE (chars t).

(** app.py's [parse_pct_from_text] (lines 524-576) is a verbatim copy of
    the resolver's. *)
Definition parse_pct_from_text : string -> option Q := Share.parse_pct_from_text.

Record DebugPath := mkDebug {
  parent_depth : Z; parent_mult : Q; dbg_local_share : option Q; dbg_eff : option Q;
  source : string; dbg_text : string }.

(** A person entry [{"ownership", "voting", "paths", "debug_paths"}]. *)
Record Entry := mkEntry {
  ownership : Q; voting : Q; paths : list (Z * option Q * string); debug_paths : list DebugPath }.

Definition empty_entry : Entry := mkEntry 0 0 [] [].

(** Scan state: persons, [header_stack] (top first) and
    [pending_next_header_mult]. *)
Record CepState := mkCep {
  persons : gmap string Entry; header_stack : list (Z * Q); pending : option Q }.

Definition top_mult (stk : list (Z * Q)) : Q := match stk with (_, m) :: _ => m | [] => 1 end.
Definition top_depth (stk : list (Z * Q)) : Z := match stk with (d, _) :: _ => d | [] => 0 end.

Fixpoint pop_while (p : Z * Q -> bool) (stk : list (Z * Q)) : list (Z * Q) :=
  match stk with
  | [] => []
  | x :: t => if p x then pop_while p t else stk
  end.

(** The person branch (lines 645-681) for [name] and text [t]. *)
Definition person_update (e : Entry) (pd : Z) (pm : Q) (node_eff : option Q) (t : string) : Entry :=
  let '(local, eff, src) :=
    match node_eff with
    | Some ne => (None, Some ne, "node_eff(person)")
    | None =>
        match parse_pct_from_text t with
        | Some ls => (Some ls, Some (pm * ls)%Q, "text(person)")
        | None =>
            match efektivne_search t with
            | Some n => (None, Some (Share.to_float n / 100)%Q, "efektivně_text(person)")
            | None => (None, None, "")
            end
        end
    end in
  let e' := match eff with
            | Some v => mkEntry (ownership e + v) (voting e + v) (paths e ++ [(pd, Some v, t)])%list
                          (debug_paths e)
            | None => mkEntry (ownership e) (voting e) (paths e ++ [(pd, None, t)])%list (debug_paths e)
            end in
  mkEntry (ownership e') (voting e') (paths e')
    (debug_paths e' ++ [mkDebug pd pm local eff (if String.eqb src "" then "unknown" else src) t])%list.

(** The company-owner branch (lines 627-643): the local share. *)
Definition company_local (pm : Q) (node_eff : option Q) (t : string) : option Q :=
  let from_text :=
    match parse_pct_from_text t with
    | Some ls => Some ls
    | None =>
        match efektivne_search t with
        | Some n => if Qlt_le_dec 0 pm then Some (Share.to_float n / 100 / pm)%Q else None
        | None => None
        end
    end in
  match node_eff with
  | Some ne => if Qlt_le_dec 0 pm then Some (ne / pm)%Q else from_text
  | None => from_text
  end.

(** Person name: [DASH_SPLIT.split(t, maxsplit=1)[0].strip()]. *)
Definition owner_name (t : string) : string := of_chars (strip_l (split_first (chars t))).

(** One iteration of the [for ln in lines] loop (lines 595-681), for a
    [NodeLine]. *)
Definition cep_step (st : CepState) (ln : Resolve.NodeLine) : CepState :=
  let d := Resolve.depth ln in
  let t := Resolve.text ln in
  if String.eqb t "" then st else
  if RE_COMPANY_HEADER_match t then
    let stk := pop_while (fun '(hd, _) => Z.leb d hd) (header_stack st) in
    let this_mult := match pending st with Some m => m | None => top_mult stk end in
    mkCep (persons st) ((d, this_mult) :: stk) None
  else if ends_with_char ":" t then st
  else
    let nm := owner_name t in
    let is_company := ICO_IN_LINE_search t in
    let expected := Z.max 0 (d - 2) in
    let stk := pop_while (fun '(hd, _) => Z.ltb expected hd) (header_stack st) in
    let pm := top_mult stk in
    let pd := top_depth stk in
    let node_eff := option_map (fun e => e / 100)%Q (Resolve.effective_pct ln) in
    if is_company then
      mkCep (persons st) stk (option_map (fun l => pm * l)%Q (company_local pm node_eff t))
    else
      let e := default empty_entry (persons st !! nm) in
      mkCep (<[nm := person_update e pd pm node_eff t]> (persons st)) stk (pending st).

Definition clamp_entry (e : Entry) : Entry :=
  mkEntry (Share.clamp01 (ownership e)) (Share.clamp01 (voting e)) (paths e) (debug_paths e).

(** [compute_effective_persons] (lines 578-685). *)
Definition compute_effective_persons (lines : list Resolve.NodeLine) : gmap string Entry :=
  clamp_entry <$> persons (fold_left cep_step lines (mkCep ∅ [] None)).

(** The submitted branch of the UBO form (lines 1234-1319).  The shares
    are Python floats: [v / 100.0] of a [number_input] or a computed
    ownership; they are modelled as IEEE-754 binary64 values. *)
Import PrimFloat.

Record FinalPerson := mkFinal {
  cap : float; vote : float; veto : bool; org_majority : bool; substitute_ubo : bool }.

(** The reasons recorded by [add_reason], as tagged data carrying the values
    the message formats. *)
Inductive Reason :=
| RCap (c : float) | RVote (v : float) | RVeto | ROrgMajority | RSubstitute
| RBlock (block_name : string) (total : float).

(** [a > b] on floats. *)
Definition qgt (a b : float) : bool := (b <? a)%float.

(** [block_total] (line 1283): [sum(...)] adds the members' votes from [0]
    in member order, a missing person counting [0.0]. *)
Definition block_total (fp : gmap string FinalPerson) (block_members : list string) : float :=
  match block_members with
  | [] => 0%float
  | _ => fold_left (fun acc n => acc + default 0 (option_map vote (fp !! n)))%float block_members 0%float
  end.

(** The individual criteria of one person (lines 1292-1310). *)
Definition individual_reasons (thr : float) (v : FinalPerson) : list Reason :=
  ((if qgt (cap v) thr then [RCap (cap v)] else [])
   ++ (if qgt (vote v) thr then [RVote (vote v)] else [])
   ++ (if veto v then [RVeto] else [])
   ++ (if org_majority v then [ROrgMajority] else [])
   ++ (if substitute_ubo v then [RSubstitute] else []))%list.

Definition nonempty_reasons (rs : list Reason) : option (list Reason) :=
  match rs with [] => None | _ => Some rs end.

(** [ubo] and [reasons] after the per-person loop. *)
Definition individual_ubo (thr : float) (fp : gmap string FinalPerson) : gmap string FinalPerson :=
  omap (fun v => match individual_reasons thr v with [] => None | _ => Some v end) fp.
Definition individual_reason_map (thr : float) (fp : gmap string FinalPerson) : gmap string (list Reason) :=
  omap (fun v => nonempty_reasons (individual_reasons thr v)) fp.

(** The voting-block promotion (lines 1312-1319). *)
Definition block_step (fp : gmap string FinalPerson) (block_name : string) (total : float)
    (acc : gmap string FinalPerson * gmap string (list Reason)) (n : string)
    : gmap string FinalPerson * gmap string (list Reason) :=
  let '(ubo, reasons) := acc in
  match fp !! n with
  | Some v => (<[n := v]> ubo,
               <[n := (default [] (reasons !! n) ++ [RBlock block_name total])%list]> reasons)
  | None => (ubo, reasons)
  end.

Definition evaluate_ubo (fp : gmap string FinalPerson) (block_members : list string)
    (block_name : string) (threshold_pct : float)
    : gmap string FinalPerson * gmap string (list Reason) :=
  let thr := (threshold_pct / 100)%float in
  let total := block_total fp block_members in
  let acc := (individual_ubo thr fp, individual_reason_map thr fp) in
  match block_members with
  | [] => acc
  | _ => if qgt total thr then fold_left (block_step fp block_name total) block_members acc
         else acc
  end.

(** The person lines of a trace: the lines the scan of
    [compute_effective_persons] hands to its person branch (non-empty text,
    not a company header, not a label, no "(IČO ...)"), and those of them
    naming [nm]. *)
Definition is_person_line (ln : Resolve.NodeLine) : bool :=
  let t := Resolve.text ln in
  negb (String.eqb t "") && negb (RE_COMPANY_HEADER_match t)
  && negb (ends_with_char ":" t) && negb (ICO_IN_LINE_search t).

Definition person_lines_of (nm : string) (lines : list Resolve.NodeLine) : list Resolve.NodeLine :=
  List.filter (fun ln => is_person_line ln && String.eqb (owner_name (Resolve.text ln)) nm) lines.

(** The text component of a [(parent_depth, eff, t)] path entry. *)
Definition path_text (p : Z * option Q * string) : string := let '(_, _, t) := p in t.

(** ** Rendering (app.py, lines 108-146) *)

Definition INDENT : string := "    ".

(** [s * n] for a string [s]. *)
Fixpoint str_repeat (n : nat) (s : string) : string :=
  match n with O => "" | S k => s ++ str_repeat k s end.

(** One element of [render_lines]: [f"{'    ' * max(0, depth)}{text}"]. *)
Definition render_line (d : Z) (t : string) : string :=
  str_repeat (Z.to_nat (Z.max 0 d)) INDENT ++ t.

(** [render_lines] on a list of [NodeLine]s, for which [_line_depth_text]
    returns [(depth, text)]. *)
Definition render_lines (lines : list Resolve.NodeLine) : list string :=
  map (fun ln => render_line (Resolve.depth ln) (Resolve.text ln)) lines.

Definition is_sp (c : ascii) : bool := ascii_eqb c " ".
Definition is_nl (c : ascii) : bool := ascii_eqb c "010".

(** The [str] branch of [_line_depth_text] (lines 119-126):
    [s = ln.rstrip("\n")]; [INDENT_RE] (leading spaces, then any
    characters up to the end) matches when [s] starts with a space and the
    rest holds no newline (the regex dot does not match one);
    then [(len(spaces) // 4, rest.strip())], otherwise [(0, s)]. *)
Definition _line_depth_text_str (ln : string) : Z * string :=
  let s := rev (drop_while is_nl (rev (chars ln))) in
  match take_while is_sp s with
  | ([], _) => (0%Z, of_chars s)
  | (sp, rest) =>
      if existsb is_nl rest then (0%Z, of_chars s)
      else ((Z.of_nat (List.length sp) / 4)%Z, strip (of_chars rest))
  end.

(** An ASCII character that [str.strip()] keeps: not one of the
    whitespace characters [is_space] lists (9-13, 28-32). *)
Definition strip_kept (c : ascii) : bool := Nat.ltb (code c) 128 && negb (is_space c).

End App.

(* ------------------------------------------------------------------ *)
(** ** A small registry: Alfa owned by Beta, Beta by Jan Novák and, through a
    manual override of 50 %, by a company with an empty record. *)

Module Ex.
Import Extract.

Definition payload_A : Payload :=
  mkPayload (Some "00000001")
    [mkZaznam (Some true) [mkNameItem (Some "Alfa s.r.o.") None] []
       [mkOrg None (Some "Akcionáři")
          [mkClen None None (Some (mkPO (Some "00000002") (Some "Beta a.s.") None))]]]
    None None.
Definition payload_B : Payload :=
  mkPayload (Some "00000002")
    [mkZaznam (Some true) [mkNameItem (Some "Beta a.s.") None] []
       [mkOrg None (Some "Akcionáři")
          [mkClen None (Some (mkFO None (Some "Jan") (Some "Novák"))) None]]]
    None None.
Definition payload_C : Payload :=
  mkPayload (Some "00000003") [] None None.
Definition get_vr (i : string) : option Payload :=
  if String.eqb i "00000001" then Some payload_A
  else if String.eqb i "00000002" then Some payload_B
  else if String.eqb i "00000003" then Some payload_C
  else None.
Definition manual_overrides : list (string * list (string * Q)) := [("00000002", [("00000003", 1 # 2)])].
Definition fromisoformat (_ : string) : option Z := None.
End Ex.

(** ** Invariants used by the properties below *)

Module Inv.
Import Chars Extract App.

(** A share fraction and a share percentage. *)
Definition in01 (q : Q) : Prop := (0 <= q <= 1)%Q.
Definition in100 (q : Q) : Prop := (0 <= q <= 100)%Q.

(** A normalised registry id: digits only, at least 8 of them. *)
Definition ico_ok (i : string) : Prop := Ico.all_digits i /\ (8 <= String.length i)%nat.

(** An extracted owner: its percentage, if any, lies in [0, 100]; a natural
    person carries no id, a legal person's id is normalised. *)
Definition share_ok (o : Owner) : Prop :=
  share_pct o = None \/ exists v, share_pct o = Some v /\ in100 v.

Definition owner_ok (o : Owner) : Prop :=
  share_ok o
  /\ match kind o with
     | PERSON => ico o = None
     | COMPANY => forall i, ico o = Some i -> ico_ok i
     end.

Definition latest_ok (r : Latest) : Prop :=
  match l_kind r with
  | PERSON => l_ico r = None
  | COMPANY => forall i, l_ico r = Some i -> ico_ok i
  end.

(** The [latest] dict of [extract_current_owners]: keys are distinct and
    each key is [(label, ident)] of its record. *)
Definition latest_inv (latest : list ((string * string) * Latest)) : Prop :=
  NoDup (map fst latest)
  /\ forall k r, In (k, r) latest -> k = (l_label r, owner_ident (l_kind r) (l_name r) (l_ico r)).

(** A person entry of [compute_effective_persons]. *)
Definition entry_ok (e : Entry) : Prop :=
  ownership e = voting e /\ List.length (debug_paths e) = List.length (paths e).

(** After the scan of a prefix [pre], each name's path texts are the texts of
    its person lines in [pre], and every stored entry is well formed. *)
Definition cep_inv (pre : list Resolve.NodeLine) (st : CepState) : Prop :=
  forall nm,
    map path_text (paths (default empty_entry (persons st !! nm)))
      = map Resolve.text (person_lines_of nm pre)
    /\ forall e, persons st !! nm = Some e -> entry_ok e /\ paths e <> [].

(** A trace line that [render_lines] writes in a form [_line_depth_text]
    reads back: non-negative depth, no newline in the text, and the text
    neither starts nor ends with a whitespace character or a non-ASCII
    byte. *)
Definition render_safe (ln : Resolve.NodeLine) : bool :=
  let cs := chars (Resolve.text ln) in
  Z.leb 0 (Resolve.depth ln) && negb (existsb is_nl cs)
  && match hd_error cs with Some c => strip_kept c | None => true end
  && match hd_error (rev cs) with Some c => strip_kept c | None => true end.

End Inv.

(* ================================================================== *)
(** * Properties *)

(* ------------------------------------------------------------------ *)
(** ** Share-text parser *)

Module ShareFacts.
Import Share.

(** Claim C3 (code_bug evidence): on ["velikost:2;25 PROCENTA"] the parser
    returns 2/25 = 0.08, because the fraction layer (FRAC_SEMI_RE, [a;b])
    fires before the percentage layer; it does not return 0.0225. *)
Theorem parse_pct_semicolon_percent_is_fraction :
  parse_pct_from_text "velikost:2;25 PROCENTA" = Some (2 # 25)%Q
  /\ ~ (exists q, parse_pct_from_text "velikost:2;25 PROCENTA" = Some q /\ (q == 9 # 400)%Q).
Proof.
  assert (H : parse_pct_from_text "velikost:2;25 PROCENTA" = Some (2 # 25)%Q) by (vm_compute; reflexivity).
  split; [exact H|].
  intros [q [Hq Heq]]. rewrite H in Hq. injection Hq as <-.
  vm_compute in Heq. discriminate.
Qed.

(** The percentage layer alone reads [2;25 PROCENTA] as 2.25 %. *)
Example procenta_semicolon_decimal :
  map to_float (finditer PROCENTA_RE (Chars.chars "velikost:2;25 PROCENTA")) = [(225 # 100)%Q].
Proof. vm_compute. reflexivity. Qed.

Example parse_pct_examples :
  parses_to "50 %" (1 # 2) = true
  /\ parses_to "1/3" (1 # 3) = true
  /\ parses_to "obchodni_podil: 1/2; splaceno:100 PROCENTA" (1 # 2) = true
  /\ parse_pct_from_text "" = None.
Proof. vm_compute. repeat split. Qed.

End ShareFacts.

(* ------------------------------------------------------------------ *)
(** ** Registry-ID normalisation *)

Module IcoFacts.
Import Chars Ico.

Lemma length_of_chars (l : list ascii) : String.length (of_chars l) = List.length l.
Proof. induction l as [|c l IH]; simpl; [reflexivity | now rewrite IH]. Qed.

Lemma chars_of_chars (l : list ascii) : chars (of_chars l) = l.
Proof. apply list_ascii_of_string_of_list_ascii. Qed.

Lemma space_not_digit (c : ascii) : is_space c = true -> is_digit c = false.
Proof.
  unfold is_space, is_digit. intros H.
  apply Bool.orb_true_iff in H.
  destruct H as [H|H]; apply andb_true_iff in H as [H1 H2];
  apply Nat.leb_le in H1; apply Nat.leb_le in H2;
  apply andb_false_iff;
  left; apply Nat.leb_gt; lia.
Qed.

Lemma filter_digit_drop_space (l : list ascii) :
  List.filter is_digit (drop_while is_space l) = List.filter is_digit l.
Proof.
  induction l as [|c l IH]; simpl; [reflexivity|].
  destruct (is_space c) eqn:Hs; [|reflexivity].
  rewrite IH, (space_not_digit c Hs). reflexivity.
Qed.

Lemma filter_digit_strip (l : list ascii) :
  List.filter is_digit (strip_l l) = List.filter is_digit l.
Proof.
  unfold strip_l. rewrite filter_rev, filter_digit_drop_space, <- filter_rev,
    rev_involutive, filter_digit_drop_space. reflexivity.
Qed.

Lemma filter_all_digits (l : list ascii) :
  Forall (fun c => is_digit c = true) (List.filter is_digit l).
Proof.
  apply List.Forall_forall. intros c Hc. apply filter_In in Hc. apply Hc.
Qed.

(** Claim C4 (corrected): [norm_ico] keeps exactly the input's digits, in
    order, and puts one zero in front only when exactly seven remain, so
    its result has length 8 only for 7- or 8-digit inputs.
    [_normalize_ico] returns [None] exactly when no digit remains;
    otherwise its result is the input's digits zero-filled on the left to
    at least 8, of length [max 8 n].  Both results are all digits. *)
Theorem normalized_ico_length :
  forall s : string,
    let n := List.length (only_digits s) in
    (chars (norm_ico s) = ((if Nat.eqb n 7 then ["0"%char] else []) ++ only_digits s)%list
     /\ all_digits (norm_ico s)
     /\ String.length (norm_ico s) = (if Nat.eqb n 7 then 8 else n))
    /\ (_normalize_ico (Some s) = None <-> n = 0)
    /\ (forall r, _normalize_ico (Some s) = Some r ->
          chars r = (repeat "0"%char (8 - n) ++ only_digits s)%list
          /\ all_digits r /\ String.length r = Nat.max 8 n).
Proof.
  intros s. cbv zeta. split; [|split].
  - unfold norm_ico, all_digits.
    destruct (Nat.eqb (List.length (only_digits s)) 7) eqn:E.
    + apply Nat.eqb_eq in E.
      rewrite chars_of_chars, length_of_chars. simpl. split; [reflexivity|]. split; [|lia].
      constructor; [reflexivity | apply filter_all_digits].
    + rewrite chars_of_chars, length_of_chars. split; [reflexivity|].
      split; [apply filter_all_digits | reflexivity].
  - assert (Hd : forall s0, List.filter is_digit (chars (strip s0)) = only_digits s0).
    { intros s0. unfold strip, only_digits. rewrite chars_of_chars. apply filter_digit_strip. }
    unfold _normalize_ico.
    destruct s as [|c s'] eqn:Es; [split; reflexivity|].
    rewrite Hd. rewrite <- Es.
    destruct (only_digits s) as [|c0 d] eqn:Ed; [split; reflexivity|].
    split; [discriminate|simpl; discriminate].
  - assert (Hd : forall s0, List.filter is_digit (chars (strip s0)) = only_digits s0).
    { intros s0. unfold strip, only_digits. rewrite chars_of_chars. apply filter_digit_strip. }
    intros r. unfold _normalize_ico.
    destruct s as [|c s'] eqn:Es; [discriminate|].
    rewrite Hd. rewrite <- Es.
    destruct (only_digits s) as [|c0 d] eqn:Ed; [discriminate|].
    rewrite <- Ed. intros H. assert (Hr : r = zfill 8 (of_chars (only_digits s))) by congruence.
    subst r. unfold zfill, all_digits.
    repeat rewrite chars_of_chars. repeat rewrite length_of_chars.
    split; [reflexivity|].
    rewrite length_app, repeat_length.
    split.
    + apply Forall_app. split.
      * apply List.Forall_forall. intros x Hx. apply repeat_spec in Hx. subst x. reflexivity.
      * apply filter_all_digits.
    + lia.
Qed.

(** Claim C4 counterexample: a 3-digit input stays 3 characters long in the
    client's cache key, and a 9-digit [icoId] stays 9 characters long in the
    trace header. *)
Lemma normalized_ico_not_always_8 :
  norm_ico "123" = "123" /\ String.length (norm_ico "123") <> 8
  /\ _normalize_ico (Some "123456789") = Some "123456789".
Proof. vm_compute. repeat split; discriminate. Qed.

End IcoFacts.

(* ------------------------------------------------------------------ *)
(** ** Owner extractor *)

Module ExtractFacts.
Import Extract.

Lemma akcionari_owners_100 (orgs : list Org) (o : Owner) :
  In o (akcionari_owners orgs) -> share_pct o = Some 100%Q /\ share_raw o = None.
Proof.
  unfold akcionari_owners. rewrite in_flat_map. intros [org [_ Ho]].
  destruct (negb (_is_active_item (o_datumVymazu org))); [contradiction|].
  rewrite in_flat_map in Ho. destruct Ho as [a [_ Ha]].
  destruct (negb (_is_active_item (c_datumVymazu a))); [contradiction|].
  destruct (c_pravnickaOsoba a), (c_fyzickaOsoba a);
    simpl in Ha; try contradiction; destruct Ha as [<-|[]]; split; reflexivity.
Qed.

Lemma akcionari_owners_member (orgs : list Org) (org : Org) (a : Clen) :
  In org orgs -> _is_active_item (o_datumVymazu org) = true ->
  In a (o_clenoveOrganu org) -> _is_active_item (c_datumVymazu a) = true ->
  let lbl := or_else (o_nazevOrganu org) "Akcionáři" in
  (forall p, c_pravnickaOsoba a = Some p ->
     let o_ico := Ico._normalize_ico (po_ico p) in
     In (mkOwner COMPANY (company_name p o_ico) o_ico (Some 100%Q) None lbl) (akcionari_owners orgs))
  /\ (forall f, c_pravnickaOsoba a = None -> c_fyzickaOsoba a = Some f ->
     In (mkOwner PERSON (_person_name f) None (Some 100%Q) None lbl) (akcionari_owners orgs)).
Proof.
  intros Horg Hact Ha Hact' lbl.
  split; [intros p Hp o_ico|intros f Hp Hf];
    unfold akcionari_owners; apply in_flat_map; exists org; split; try exact Horg;
    rewrite Hact; simpl; apply in_flat_map; exists a; split; try exact Ha;
    rewrite Hact'; simpl; rewrite Hp; try rewrite Hf; left; reflexivity.
Qed.

(** Claim C1 (corrected): the shareholder loop assigns 100 % to every active
    member (legal or natural person) of every active shareholder section,
    whatever the section's header: each such member yields its own owner
    (a COMPANY with the member's name and normalised id, or a PERSON with
    the member's name) with share 100, no raw share, and the section's
    label.  It reads no share of its own, and these owners follow the
    member owners in the extractor's output. *)
Theorem shareholder_members_get_100 :
  (forall (orgs : list Org) (o : Owner),
      In o (akcionari_owners orgs) -> share_pct o = Some 100%Q /\ share_raw o = None)
  /\ (forall (orgs : list Org) (org : Org) (a : Clen),
      In org orgs -> _is_active_item (o_datumVymazu org) = true ->
      In a (o_clenoveOrganu org) -> _is_active_item (c_datumVymazu a) = true ->
      let lbl := or_else (o_nazevOrganu org) "Akcionáři" in
      (forall p, c_pravnickaOsoba a = Some p ->
         let o_ico := Ico._normalize_ico (po_ico p) in
         In (mkOwner COMPANY (company_name p o_ico) o_ico (Some 100%Q) None lbl) (akcionari_owners orgs))
      /\ (forall f, c_pravnickaOsoba a = None -> c_fyzickaOsoba a = Some f ->
         In (mkOwner PERSON (_person_name f) None (Some 100%Q) None lbl) (akcionari_owners orgs)))
  /\ (forall fio dmin (p : Payload) (z : Zaznam),
      _pick_primary_or_record (zaznamy p) = Some z ->
      snd (extract_current_owners fio dmin p)
        = (spolecnici_owners fio dmin (spolecnici z) ++ akcionari_owners (akcionari z))%list).
Proof.
  split; [exact akcionari_owners_100|]. split; [exact akcionari_owners_member|].
  intros fio dmin p z Hz. unfold extract_current_owners. rewrite Hz. reflexivity.
Qed.

(** Claim C1, counterexample: a shareholder section headed "Akcionáři",
    which is not "jediný akcionář", still gives its natural-person member
    a share of 100 %. *)
Lemma shareholder_header_not_sole_gets_100 :
  let org := mkOrg None (Some "Akcionáři")
               [mkClen None (Some (mkFO None (Some "Jan") (Some "Novák"))) None] in
  let z := mkZaznam (Some true) [mkNameItem (Some "Alfa a.s.") None] [] [org] in
  let p := mkPayload (Some "12345678") [z] None None in
  extract_current_owners (fun _ => None) 0%Z p
  = ("12345678", "Alfa a.s.",
     [mkOwner PERSON "Jan Novák" None (Some 100%Q) None "Akcionáři"]).
Proof. vm_compute. reflexivity. Qed.

(** Claim C1, witness: the theorem applied to a section "Akcionáři" with
    a natural-person member and a legal-person member. *)
Lemma shareholder_members_get_100_witness :
  let f := mkFO None (Some "Jan") (Some "Novák") in
  let a := mkClen None (Some f) None in
  let po := mkPO (Some "1234567") (Some "Beta a.s.") None in
  let b := mkClen None None (Some po) in
  let org := mkOrg None (Some "Akcionáři") [a; b] in
  In (mkOwner PERSON (_person_name f) None (Some 100%Q) None "Akcionáři") (akcionari_owners [org])
  /\ In (mkOwner COMPANY (company_name po (Ico._normalize_ico (po_ico po)))
         (Ico._normalize_ico (po_ico po)) (Some 100%Q) None "Akcionáři") (akcionari_owners [org]).
Proof.
  intros f a po b org. split.
  - apply (proj2 (proj1 (proj2 shareholder_members_get_100) [org] org a
                   (or_introl eq_refl) eq_refl (or_introl eq_refl) eq_refl) f eq_refl eq_refl).
  - apply (proj1 (proj1 (proj2 shareholder_members_get_100) [org] org b
                   (or_introl eq_refl) eq_refl (or_intror (or_introl eq_refl)) eq_refl) po eq_refl).
Defined.

End ExtractFacts.

(* ------------------------------------------------------------------ *)
(** ** Tree resolver *)

Module ResolveFacts.
Import Extract Resolve.

Lemma add_line_app a b l : add_line (app_state a b) l = app_state a (add_line b l).
Proof. destruct a, b; unfold add_line, app_state; simpl; rewrite app_assoc; reflexivity. Qed.

Lemma add_warning_app a b w : add_warning (app_state a b) w = app_state a (add_warning b w).
Proof. destruct a, b; unfold add_warning, app_state; simpl; rewrite app_assoc; reflexivity. Qed.

Lemma app_state_nil a : app_state a ([], []) = a.
Proof. destruct a; unfold app_state; simpl; rewrite !app_nil_r; reflexivity. Qed.

Lemma fold_opt_frame {A} (g : State -> A -> option State) (l : list A) :
  (forall x a b, g (app_state a b) x = option_map (app_state a) (g b x)) ->
  forall a b, fold_opt g l (app_state a b) = option_map (app_state a) (fold_opt g l b).
Proof.
  intros Hg. induction l as [|x t IH]; intros a b; simpl; [reflexivity|].
  rewrite Hg. destruct (g b x); simpl; [apply IH|reflexivity].
Qed.

Lemma walk_frame fio dmin gv md mo fuel :
  forall ico d pm a b,
  walk fio dmin gv md mo fuel ico d pm (app_state a b)
  = option_map (app_state a) (walk fio dmin gv md mo fuel ico d pm b).
Proof.
  induction fuel as [|f IH]; intros ico d pm a b; simpl walk; [reflexivity|].
  destruct (Z.ltb md d); [simpl; rewrite add_line_app; reflexivity|].
  destruct (gv ico) as [p|]; [|reflexivity].
  destruct (truthy (_error p)); [simpl; rewrite add_line_app, add_warning_app; reflexivity|].
  destruct (extract fio dmin p) as [[c_ico c_name] owners].
  rewrite add_line_app.
  destruct (merge_owners fio dmin gv mo c_ico owners) as [|o0 os0];
    [rewrite add_warning_app|];
    apply fold_opt_frame; intros [lbl lst] a' b'; rewrite add_line_app;
    apply fold_opt_frame; intros o a'' b'';
    destruct (owner_line d lbl pm o) as [ln [[cico nm]|]];
    rewrite add_line_app; first [apply IH | reflexivity].
Qed.

Lemma fold_opt_inv {A} (I : State -> Prop) (g : State -> A -> option State) (l : list A) :
  (forall x s s', In x l -> I s -> g s x = Some s' -> I s') ->
  forall s s', I s -> fold_opt g l s = Some s' -> I s'.
Proof.
  intros Hg. induction l as [|x t IH]; intros s s' Hs; simpl.
  - intros [= <-]; exact Hs.
  - destruct (g s x) as [s1|] eqn:E; [|discriminate].
    apply IH; [intros; eapply Hg; eauto; right; assumption|].
    eapply Hg; eauto; left; reflexivity.
Qed.

Lemma group_add_inv (P : Owner -> Prop) (o : Owner) (g : list (string * list Owner)) :
  (forall l lst, In (l, lst) g -> lst <> [] /\ forall o', In o' lst -> label o' = l /\ P o') ->
  P o ->
  forall l lst, In (l, lst) (group_add o g) ->
    lst <> [] /\ forall o', In o' lst -> label o' = l /\ P o'.
Proof.
  intros Hg Ho. induction g as [|[l' os] t IH]; simpl.
  - intros l lst [[= <- <-]|[]]. split; [discriminate|].
    intros o' [<-|[]]. split; [reflexivity|exact Ho].
  - destruct (String.eqb l' (label o)) eqn:E.
    + apply String.eqb_eq in E. intros l lst [[= <- <-]|Hin].
      * destruct (Hg l' os (or_introl eq_refl)) as [_ Hos]. split.
        { intros Hn. apply app_eq_nil in Hn. destruct Hn as [_ Hn]. discriminate. }
        intros o' Hin'. apply in_app_or in Hin'. destruct Hin' as [Hin'|[<-|[]]].
        { apply Hos, Hin'. }
        { split; [symmetry; exact E|exact Ho]. }
      * apply Hg. right. exact Hin.
    + intros l lst [Heq|Hin].
      * apply Hg. left. exact Heq.
      * apply IH; [|exact Hin]. intros. apply Hg. right. assumption.
Qed.

Lemma group_by_label_inv (os : list Owner) :
  forall l lst, In (l, lst) (group_by_label os) ->
    lst <> [] /\ forall o, In o lst -> label o = l /\ In o os.
Proof.
  unfold group_by_label.
  assert (H : forall rest acc,
    (forall l lst, In (l, lst) acc -> lst <> [] /\ forall o, In o lst -> label o = l /\ In o os) ->
    (forall o, In o rest -> In o os) ->
    forall l lst, In (l, lst) (fold_left (fun g o => group_add o g) rest acc) ->
      lst <> [] /\ forall o, In o lst -> label o = l /\ In o os).
  { induction rest as [|o rest IH]; intros acc Hacc Hrest; simpl; [exact Hacc|].
    apply IH; [|intros; apply Hrest; right; assumption].
    apply group_add_inv; [exact Hacc|]. apply Hrest. left. reflexivity. }
  apply H; [intros l lst []|intros o Ho; exact Ho].
Qed.

Lemma walk_lines fio dmin gv md mo ico0 d0 m0 fuel :
  forall ico d m path st st',
  Reached fio dmin gv md mo ico0 d0 m0 ico d m path ->
  walk fio dmin gv md mo fuel ico d m st = Some st' ->
  forall l, In l (fst st') -> In l (fst st) \/ LineOf fio dmin gv md mo ico0 d0 m0 l.
Proof.
  induction fuel as [|f IH]; intros ico d m path st st' Hr; simpl walk.
  { intros [= <-] l Hl. left. exact Hl. }
  destruct (Z.ltb md d) eqn:Hg.
  { intros [= <-] l Hl. simpl in Hl. apply in_app_or in Hl.
    destruct Hl as [Hl|[<-|[]]]; [left; exact Hl|right; eapply line_trunc; eauto]. }
  destruct (gv ico) as [p|] eqn:Hp; [|discriminate].
  destruct (truthy (_error p)) eqn:He.
  { intros [= <-] l Hl. simpl in Hl. apply in_app_or in Hl.
    destruct Hl as [Hl|[<-|[]]]; [left; exact Hl|right; eapply line_error; eauto]. }
  destruct (extract fio dmin p) as [[c_ico c_name] owners] eqn:Hx.
  set (I := fun s : State => forall l, In l (fst s) -> In l (fst st) \/ LineOf fio dmin gv md mo ico0 d0 m0 l).
  intros Hw. apply (fold_opt_inv I) in Hw; [exact Hw| |].
  2:{ intros l Hl. destruct (merge_owners fio dmin gv mo c_ico owners); simpl in Hl;
      apply in_app_or in Hl; (destruct Hl as [Hl|[<-|[]]]; [left; exact Hl|right; eapply line_header; eauto]). }
  intros [lbl lst] s s' Hin Hs. apply group_by_label_inv in Hin. destruct Hin as [Hne Hlst].
  apply (fold_opt_inv I).
  2:{ intros l Hl. simpl in Hl. apply in_app_or in Hl. destruct Hl as [Hl|[<-|[]]]; [apply Hs, Hl|].
      destruct lst as [|o lst]; [contradiction|]. destruct (Hlst o (or_introl eq_refl)) as [<- Ho].
      right. eapply line_label; eauto. }
  intros o s1 s2 Ho Hs1. destruct (Hlst o Ho) as [<- Hom].
  destruct (owner_line d (label o) m o) as [ln child] eqn:Hol.
  assert (Hs1' : I (add_line s1 ln)).
  { intros l Hl. simpl in Hl. apply in_app_or in Hl. destruct Hl as [Hl|[<-|[]]]; [apply Hs1, Hl|].
    right. replace ln with (fst (owner_line d (label o) m o)) by (rewrite Hol; reflexivity).
    eapply line_owner; eauto. }
  destruct child as [[cico nm]|].
  - intros Hw2 l Hl. destruct (IH _ _ _ _ _ _ (reached_child _ _ _ _ _ _ _ _ ico d m path p c_ico c_name owners o cico nm Hr Hg Hp He Hx Hom ltac:(rewrite Hol; reflexivity)) Hw2 l Hl) as [H|H];
      [apply Hs1', H|right; exact H].
  - intros [= <-]. exact Hs1'.
Qed.

Lemma reached_depth fio dmin gv md mo ico0 d0 m0 ico d m path :
  Reached fio dmin gv md mo ico0 d0 m0 ico d m path ->
  (d0 <= d)%Z /\ ((d - d0) mod 3 = 0)%Z /\ (d = d0 \/ d <= md + 3)%Z.
Proof.
  induction 1 as [|ico d m path p c_ico c_name owners o cico nm _ [H1 [H2 _]] Hg]; [split; [lia|split; [rewrite Z.sub_diag; reflexivity|left; reflexivity]]|].
  apply Z.ltb_ge in Hg. split; [lia|split; [|right; lia]].
  replace (d + 3 - d0)%Z with ((d - d0) + 1 * 3)%Z by lia. rewrite Z_mod_plus_full. exact H2.
Qed.

Lemma owner_line_depth d lbl m o : depth (fst (owner_line d lbl m o)) = (d + 2)%Z.
Proof.
  unfold owner_line. destruct (is_company_owner o), (local_share o), (eff_share o); reflexivity.
Qed.

Lemma owner_line_known d lbl m o s :
  local_share o = Some s ->
  effective_pct (fst (owner_line d lbl m o)) = Some (m * s * 100)%Q
  /\ forall cico nm, snd (owner_line d lbl m o) = Some (cico, nm) -> nm = (m * s)%Q.
Proof.
  intros Hs. unfold owner_line. rewrite Hs.
  destruct (is_company_owner o); simpl; split; try reflexivity;
    intros cico nm H; inversion H; reflexivity.
Qed.

Lemma reached_mult fio dmin gv md mo ico0 d0 m0 ico d m path :
  Reached fio dmin gv md mo ico0 d0 m0 ico d m path ->
  forall shares, path = map Some shares -> m = fold_left Qmult shares m0.
Proof.
  induction 1 as [|ico d m path p c_ico c_name owners o cico nm _ IH Hg Hp He Hx Ho Hol].
  - intros [|s t]; [reflexivity|discriminate].
  - intros shares Hsh. symmetry in Hsh. apply map_eq_app in Hsh.
    destruct Hsh as [l1 [l2 [-> [Hl1 Hl2]]]].
    destruct l2 as [|s [|]]; try discriminate. simpl in Hl2. injection Hl2 as Hs.
    rewrite fold_left_app. simpl. rewrite <- (IH l1 (eq_sym Hl1)).
    symmetry in Hs. apply (proj2 (owner_line_known d (label o) m o s Hs) cico nm Hol).
Qed.

Lemma app_state_assoc a b c : app_state (app_state a b) c = app_state a (app_state b c).
Proof. destruct a, b, c; unfold app_state; simpl; rewrite !app_assoc; reflexivity. Qed.

Lemma walk_prefix fio dmin gv md mo fuel ico d pm st st' :
  walk fio dmin gv md mo fuel ico d pm st = Some st' -> exists t, st' = app_state st t.
Proof.
  rewrite <- (app_state_nil st) at 1. rewrite walk_frame.
  destruct (walk fio dmin gv md mo fuel ico d pm ([], [])) as [t|]; simpl; [|discriminate].
  intros [= <-]. exists t. reflexivity.
Qed.

Lemma fold_opt_prefix {A} (g : State -> A -> option State) (l : list A) :
  (forall x s s', In x l -> g s x = Some s' -> exists t, s' = app_state s t) ->
  forall s s', fold_opt g l s = Some s' -> exists t, s' = app_state s t.
Proof.
  intros Hg s s' H.
  apply (fold_opt_inv (fun s1 => exists t, s1 = app_state s t)) with (s := s) in H;
    [exact H| |exists ([], []); symmetry; apply app_state_nil].
  intros x s1 s2 Hx [t ->] H2. destruct (Hg x _ _ Hx H2) as [t' ->].
  exists (app_state t t'). apply app_state_assoc.
Qed.

Lemma fold_opt_ext {A} (g g' : State -> A -> option State) (l : list A) :
  (forall s x, In x l -> g s x = g' s x) -> forall s, fold_opt g l s = fold_opt g' l s.
Proof.
  intros H. induction l as [|x t IH]; intros s; simpl; [reflexivity|].
  rewrite H by (left; reflexivity). destruct (g' s x); [|reflexivity].
  apply IH. intros; apply H; right; assumption.
Qed.




(** Claim C2 (confirmed): every trace line at a depth of the form 3k+2 is
    the owner line, built by [owner_line], of an owner [o] of a node the
    walk reached with parent multiplier [m].  When [o]'s local share [s] is
    known, the line's effective_pct is exactly [100 * m * s]; when moreover
    the local shares on the path from the root are all known, it is 100
    times the product of those shares and [s]. *)
Theorem owner_line_effective_pct fio dmin gv md mo root ls ws l :
  resolve_tree_online fio dmin gv md mo root = Some (ls, ws) ->
  In l ls -> (depth l mod 3 = 2)%Z ->
  exists ico d m path p c_ico c_name owners o,
    Reached fio dmin gv md mo root 0 1 ico d m path /\
    gv ico = Some p /\ truthy (_error p) = false /\
    extract fio dmin p = (c_ico, c_name, owners) /\
    In o (merge_owners fio dmin gv mo c_ico owners) /\
    l = fst (owner_line d (label o) m o) /\
    forall s, local_share o = Some s ->
      effective_pct l = Some (m * s * 100)%Q /\
      forall shares, path = map Some shares ->
        effective_pct l = Some (fold_left Qmult (shares ++ [s]) 1 * 100)%Q.
Proof.
  intros Hw Hl Hmod.
  destruct (walk_lines _ _ _ _ _ root 0 1 _ _ _ _ _ _ _ (reached_root _ _ _ _ _ _ _ _) Hw l Hl)
    as [[]|Hlo].
  destruct Hlo as [ico d m path Hr _|ico d m path p Hr _ _ _
                  |ico d m path p c_ico c_name owners Hr _ _ _ _
                  |ico d m path p c_ico c_name owners o Hr _ _ _ _ _
                  |ico d m path p c_ico c_name owners o Hr Hg Hp He Hx Ho];
    destruct (reached_depth _ _ _ _ _ _ _ _ _ _ _ _ Hr) as [H0 [H3 _]]; simpl in Hmod;
    try (rewrite owner_line_depth in Hmod); try (exfalso; Z.div_mod_to_equations; lia).
  exists ico, d, m, path, p, c_ico, c_name, owners, o.
  do 6 (split; [assumption || reflexivity|]).
  intros s Hs. destruct (owner_line_known d (label o) m o s Hs) as [He' _].
  split; [exact He'|]. intros shares Hsh.
  rewrite He', fold_left_app, <- (reached_mult _ _ _ _ _ _ _ _ _ _ _ _ Hr shares Hsh).
  reflexivity.
Qed.

Lemma fold_opt_lines {A} (f : A -> list NodeLine) (g : State -> A -> option State) (l : list A) :
  (forall s x, In x l -> g s x = Some ((fst s ++ f x)%list, snd s)) ->
  forall s, fold_opt g l s = Some ((fst s ++ flat_map f l)%list, snd s).
Proof.
  induction l as [|x t IH]; intros Hg s; simpl.
  - rewrite app_nil_r. destruct s; reflexivity.
  - rewrite (Hg s x (or_introl eq_refl)). rewrite IH by (intros s' y Hy; apply Hg; right; exact Hy).
    simpl. rewrite app_assoc. reflexivity.
Qed.

Lemma owner_line_child d lbl pm o :
  is_Some (snd (owner_line d lbl pm o)) <-> is_company_owner o = true.
Proof.
  unfold owner_line. destruct (is_company_owner o).
  - destruct (local_share o), (eff_share o); simpl; split; intros; try reflexivity; eexists; reflexivity.
  - destruct (local_share o) as [x|], (eff_share o) as [y|]; simpl;
      split; intros H; try discriminate; destruct H as [? [=]].
Qed.

(** Claim C5 (corrected): the depth guard fires, emitting only the
    truncation line, exactly when [max_depth < depth]; otherwise the first
    line the node emits is its error line or its company header.  With
    [max_depth = 0] the root is still expanded: the trace has lines at
    depths 0 to 3, and the depth-3 lines are truncation notices.  When
    the root's record is fetched without error, the trace is exactly its
    header (depth 0), then for each label group its label line (depth 1)
    followed by its owner lines (depth 2), each company owner's line
    followed by one truncation line (depth 3); the only possible warning
    is the root's "unresolved" one. *)
Theorem depth_guard fio dmin gv md mo :
  (forall f ico d pm st, (md < d)%Z ->
     walk fio dmin gv md mo (S f) ico d pm st = Some (add_line st (trunc_line d)))
  /\ (forall f ico d pm st st', (d <= md)%Z ->
     walk fio dmin gv md mo (S f) ico d pm st = Some st' ->
     exists p l rest, gv ico = Some p /\ fst st' = (fst st ++ l :: rest)%list /\
       ((truthy (_error p) = true /\ l = mkLine d "" (error_text ico (or_else (_error p) "")) None)
        \/ (exists c_ico c_name owners, truthy (_error p) = false /\
              extract fio dmin p = (c_ico, c_name, owners) /\
              l = mkLine d "" (header_text c_name c_ico)
                    (if Z.eqb d 0 then Some (pm * 100)%Q else None))))
  /\ (forall root ls ws, md = 0%Z ->
     resolve_tree_online fio dmin gv md mo root = Some (ls, ws) ->
     forall l, In l ls -> (0 <= depth l <= 3)%Z /\ (depth l = 3%Z -> l = trunc_line 3))
  /\ (forall root p c_ico c_name owners, md = 0%Z ->
     gv root = Some p -> truthy (_error p) = false ->
     extract fio dmin p = (c_ico, c_name, owners) ->
     let merged := merge_owners fio dmin gv mo c_ico owners in
     resolve_tree_online fio dmin gv md mo root
     = Some (mkLine 0 "" (header_text c_name c_ico) (Some (1 * 100)%Q)
             :: flat_map (fun '(lbl, lst) =>
                  mkLine 1 lbl (lbl ++ ":") None
                  :: flat_map (fun o => fst (owner_line 0 lbl 1 o)
                                :: (if is_company_owner o then [trunc_line 3] else [])) lst)
                (group_by_label merged),
             match merged with
             | [] => [mkWarning "unresolved" c_ico c_name (unresolved_text c_name c_ico)]
             | _ => []
             end)).
Proof.
  split; [|split; [|split]].
  - intros f ico d pm st Hd. simpl walk. apply Z.ltb_lt in Hd. rewrite Hd. reflexivity.
  - intros f ico d pm st st' Hd. simpl walk. apply Z.ltb_ge in Hd. rewrite Hd.
    destruct (gv ico) as [p|]; [|discriminate].
    destruct (truthy (_error p)) eqn:He.
    { intros [= <-]. exists p, (mkLine d "" (error_text ico (or_else (_error p) "")) None), [].
      split; [reflexivity|]. split; [reflexivity|]. left. split; [exact He|reflexivity]. }
    destruct (extract fio dmin p) as [[c_ico c_name] owners] eqn:Hx.
    intros Hw. apply fold_opt_prefix in Hw.
    + destruct Hw as [t ->]. eexists p, _, (fst t).
      split; [reflexivity|]. split.
      * destruct (merge_owners fio dmin gv mo c_ico owners); simpl; rewrite <- app_assoc; reflexivity.
      * right. exists c_ico, c_name, owners. split; [exact He|]. split; [exact Hx|]. reflexivity.
    + intros [lbl lst] s s' _ Hs. apply fold_opt_prefix in Hs.
      * destruct Hs as [t ->]. exists (app_state (add_line ([], []) (mkLine (d + 1) lbl (lbl ++ ":") None)) t).
        rewrite <- app_state_assoc, <- add_line_app, app_state_nil. reflexivity.
      * intros o s1 s2 _. destruct (owner_line d lbl pm o) as [ln [[cico nm]|]].
        -- intros Hw2. apply walk_prefix in Hw2. destruct Hw2 as [t ->].
           exists (app_state (add_line ([], []) ln) t).
           rewrite <- app_state_assoc, <- add_line_app, app_state_nil. reflexivity.
        -- intros [= <-]. exists (add_line ([], []) ln).
           rewrite <- add_line_app, app_state_nil. reflexivity.
  - intros root ls ws -> Hw l Hl.
    destruct (walk_lines _ _ _ _ _ root 0 1 _ _ _ _ _ _ _ (reached_root _ _ _ _ _ _ _ _) Hw l Hl)
      as [[]|Hlo].
    destruct Hlo as [ico d m path Hr Hg|ico d m path p Hr Hg _ _
                    |ico d m path p c_ico c_name owners Hr Hg _ _ _
                    |ico d m path p c_ico c_name owners o Hr Hg _ _ _ _
                    |ico d m path p c_ico c_name owners o Hr Hg _ _ _ _];
      destruct (reached_depth _ _ _ _ _ _ _ _ _ _ _ _ Hr) as [H0 [H3 H4]];
      [apply Z.ltb_lt in Hg|apply Z.ltb_ge in Hg..]; simpl;
      try rewrite owner_line_depth.
    + assert (d = 3)%Z as -> by (Z.div_mod_to_equations; lia). split; [lia|reflexivity].
    + split; [lia|intros; lia].
    + split; [lia|intros; lia].
    + split; [lia|intros; lia].
    + split; [lia|intros; lia].
  - intros root p c_ico c_name owners -> Hp He Hx merged.
    unfold resolve_tree_online. change (S (Z.to_nat (0 + 3))) with (S 3).
    cbn [walk]. rewrite Hp, He, Hx. cbv [Z.ltb Z.compare Z.eqb]. fold merged.
    set (ws := match merged with
               | [] => [mkWarning "unresolved" c_ico c_name (unresolved_text c_name c_ico)]
               | _ => [] end).
    set (hdr := mkLine 0 "" (header_text c_name c_ico) (Some (1 * 100)%Q)).
    match goal with |- fold_opt _ _ ?s0 = _ => assert (Hs0 : s0 = ([hdr], ws)) end.
    { unfold ws. destruct merged; reflexivity. }
    rewrite Hs0.
    erewrite fold_opt_lines; [reflexivity|].
    intros s0 [lbl lst] _.
    erewrite fold_opt_lines; [simpl; rewrite <- app_assoc; reflexivity|].
    intros s1 o _.
    destruct (owner_line 0 lbl 1 o) as [ln child] eqn:Hol.
    pose proof (owner_line_child 0 lbl 1 o) as Hc. rewrite Hol in Hc. simpl in Hc.
    replace (fst (owner_line 0 lbl 1 o)) with ln by (rewrite Hol; reflexivity).
    destruct child as [[cico nm]|].
    + rewrite (proj1 Hc (ex_intro _ _ eq_refl)). simpl. unfold add_line. simpl.
      rewrite <- app_assoc. reflexivity.
    + destruct (is_company_owner o); [destruct (proj2 Hc eq_refl) as [? [=]]|].
      simpl. reflexivity.
Qed.

(** Claim C8 (confirmed): when the owner list of a node is empty after the
    merge with the manual overrides, the node emits its header line and
    exactly one warning [{kind="unresolved", ico, name, text}], and nothing
    else; when the merged list is non-empty, every warning the node adds
    comes from the walk of one of its company owners. *)
Theorem unresolved_warning fio dmin gv md mo f ico d pm st p c_ico c_name owners :
  Z.ltb md d = false -> gv ico = Some p -> truthy (_error p) = false ->
  extract fio dmin p = (c_ico, c_name, owners) ->
  let hdr := mkLine d "" (header_text c_name c_ico)
               (if Z.eqb d 0 then Some (pm * 100)%Q else None) in
  let merged := merge_owners fio dmin gv mo c_ico owners in
  (merged = [] ->
     walk fio dmin gv md mo (S f) ico d pm st
     = Some (add_warning (add_line st hdr)
               (mkWarning "unresolved" c_ico c_name (unresolved_text c_name c_ico))))
  /\ (merged <> [] -> forall st',
     walk fio dmin gv md mo (S f) ico d pm st = Some st' ->
     forall w, In w (snd st') -> In w (snd st) \/
       exists o cico nm stc, In o merged /\ snd (owner_line d (label o) pm o) = Some (cico, nm) /\
         walk fio dmin gv md mo f cico (d + 3) nm ([], []) = Some stc /\ In w (snd stc)).
Proof.
  intros Hg Hp He Hx hdr merged. simpl walk. rewrite Hg, Hp, He, Hx. fold hdr merged.
  split.
  - intros Hm. rewrite Hm. reflexivity.
  - intros Hm st'. destruct merged as [|o0 os0] eqn:Em; [contradiction|]. rewrite <- Em.
    set (I := fun s : State => forall w, In w (snd s) -> In w (snd st) \/
       exists o cico nm stc, In o merged /\ snd (owner_line d (label o) pm o) = Some (cico, nm) /\
         walk fio dmin gv md mo f cico (d + 3) nm ([], []) = Some stc /\ In w (snd stc)).
    intros Hw. apply (fold_opt_inv I) in Hw; [exact Hw| |intros w Hw'; left; exact Hw'].
    intros [lbl lst] s s' Hin Hs. apply group_by_label_inv in Hin. destruct Hin as [_ Hlst].
    apply (fold_opt_inv I); [|exact Hs].
    intros o s1 s2 Ho Hs1. destruct (Hlst o Ho) as [<- Hom].
    destruct (owner_line d (label o) pm o) as [ln child] eqn:Hol.
    destruct child as [[cico nm]|].
    + intros Hw2. rewrite <- (app_state_nil (add_line s1 ln)) in Hw2 at 1.
      rewrite walk_frame in Hw2.
      destruct (walk fio dmin gv md mo f cico (d + 3) nm ([], [])) as [stc|] eqn:Ec; [|discriminate].
      injection Hw2 as <-. intros w Hw'. simpl in Hw'. apply in_app_or in Hw'.
      destruct Hw' as [Hw'|Hw']; [apply Hs1, Hw'|].
      right. exists o, cico, nm, stc. rewrite Hol. auto.
    + intros [= <-]. exact Hs1.
Qed.

Lemma walk_local fio dmin g1 g2 md mo root fuel :
  (forall i, Queried fio dmin g1 md mo root 0 1 i -> g1 i = g2 i) ->
  forall ico d m path st, Reached fio dmin g1 md mo root 0 1 ico d m path ->
  walk fio dmin g1 md mo fuel ico d m st = walk fio dmin g2 md mo fuel ico d m st.
Proof.
  intros Hq. induction fuel as [|f IH]; intros ico d m path st Hr; simpl walk; [reflexivity|].
  destruct (Z.ltb md d) eqn:Hg; [reflexivity|].
  rewrite <- (Hq ico (queried_node _ _ _ _ _ _ _ _ _ _ _ _ Hr Hg)).
  destruct (g1 ico) as [p|] eqn:Hp; [|reflexivity].
  destruct (truthy (_error p)) eqn:He; [reflexivity|].
  destruct (extract fio dmin p) as [[c_ico c_name] owners] eqn:Hx.
  assert (Hm : merge_owners fio dmin g1 mo c_ico owners = merge_owners fio dmin g2 mo c_ico owners).
  { unfold merge_owners.
    rewrite (map_ext_in (manual_owner fio dmin g1) (manual_owner fio dmin g2)); [reflexivity|].
    intros [oi os] Hin. unfold manual_owner. rewrite (Hq oi); [reflexivity|].
    eapply queried_manual; eauto. }
  rewrite <- Hm. apply fold_opt_ext. intros s [lbl lst] Hin.
  apply group_by_label_inv in Hin. destruct Hin as [_ Hlst].
  apply fold_opt_ext. intros s' o Ho. destruct (Hlst o Ho) as [<- Hom].
  destruct (owner_line d (label o) m o) as [ln [[cico nm]|]] eqn:Hol; [|reflexivity].
  eapply IH. eapply reached_child; eauto. rewrite Hol. reflexivity.
Qed.

Lemma ssorted_snoc (pos : list nat) x :
  StronglySorted lt pos -> Forall (fun k => k < x) pos -> StronglySorted lt (pos ++ [x]).
Proof.
  induction pos as [|a t IH]; intros Hs Hf; simpl.
  - constructor; constructor.
  - inversion Hs as [|? ? Hs' Ha]; subst. inversion Hf as [|? ? Hax Hft]; subst.
    constructor; [apply IH; assumption|].
    apply Forall_app. split; [exact Ha|]. constructor; [exact Hax|constructor].
Qed.

Lemma order_positions (ls : list NodeLine) pos ws :
  Forall2 (fun k w => exists l, nth_error ls k = Some l /\ anchored l w) pos ws ->
  Forall (fun k => k < length ls) pos.
Proof.
  intros Hf. induction Hf as [|k w ks ws' [l' [Hk _]] _ IH]; constructor; [|exact IH].
  apply nth_error_Some. congruence.
Qed.

Lemma order_extend (ls ext : list NodeLine) pos ws :
  Forall2 (fun k w => exists l, nth_error ls k = Some l /\ anchored l w) pos ws ->
  Forall2 (fun k w => exists l, nth_error (ls ++ ext) k = Some l /\ anchored l w) pos ws.
Proof.
  intros Hf. induction Hf as [|k w ks ws' [l' [Hk Ha]] _ IH]; constructor; [|exact IH].
  exists l'. split; [|exact Ha].
  rewrite nth_error_app1; [exact Hk|]. apply nth_error_Some. congruence.
Qed.

Lemma order_add_line st l : in_walk_order st -> in_walk_order (add_line st l).
Proof.
  intros [pos [Hs Hf]]. exists pos. split; [exact Hs|]. apply order_extend, Hf.
Qed.

Lemma order_add_anchored st l w :
  in_walk_order st -> anchored l w -> in_walk_order (add_warning (add_line st l) w).
Proof.
  intros [pos [Hs Hf]] Ha. exists (pos ++ [length (fst st)])%list. split.
  - apply ssorted_snoc; [exact Hs|exact (order_positions _ _ _ Hf)].
  - simpl. apply Forall2_app; [apply order_extend, Hf|]. constructor; [|constructor].
    exists l. split; [|exact Ha]. rewrite nth_error_app2, Nat.sub_diag by lia. reflexivity.
Qed.

Lemma walk_order fio dmin gv md mo fuel :
  forall ico d m st st', in_walk_order st ->
  walk fio dmin gv md mo fuel ico d m st = Some st' -> in_walk_order st'.
Proof.
  induction fuel as [|f IH]; intros ico d m st st' Hst; simpl walk; [intros [= <-]; exact Hst|].
  destruct (Z.ltb md d); [intros [= <-]; apply order_add_line, Hst|].
  destruct (gv ico) as [p|]; [|discriminate].
  destruct (truthy (_error p)).
  { intros [= <-]. apply order_add_anchored; [exact Hst|]. left. split; reflexivity. }
  destruct (extract fio dmin p) as [[c_ico c_name] owners].
  intros Hw. apply (fold_opt_inv in_walk_order) in Hw; [exact Hw| |].
  2:{ destruct (merge_owners fio dmin gv mo c_ico owners);
      [apply order_add_anchored; [exact Hst|right; split; reflexivity]|apply order_add_line, Hst]. }
  intros [lbl lst] s s' _ Hs. apply (fold_opt_inv in_walk_order).
  2:{ apply order_add_line, Hs. }
  intros o s1 s2 _ Hs1. destruct (owner_line d lbl m o) as [ln [[cico nm]|]].
  - apply IH. apply order_add_line, Hs1.
  - intros [= <-]. apply order_add_line, Hs1.
Qed.

(** Claim C9 (confirmed): two resolve calls with the same root,
    max_depth and manual overrides produce the same trace, line for line,
    and the same warnings whenever their registry lookups return the same
    outcome for every id the first call looks up (its reached nodes within
    max_depth and their manual owners), whatever the lookups answer for
    other ids.  The warnings of a call are in walk order: each is anchored
    at a trace line (an error warning at its node's error line, an
    unresolved warning at its node's header), and the anchors of
    successive warnings appear in the trace in the same order. *)
Theorem resolve_deterministic fio dmin g1 g2 md mo root :
  ((forall i, Queried fio dmin g1 md mo root 0 1 i -> g1 i = g2 i) ->
     resolve_tree_online fio dmin g1 md mo root = resolve_tree_online fio dmin g2 md mo root)
  /\ (forall ls ws, resolve_tree_online fio dmin g1 md mo root = Some (ls, ws) ->
        in_walk_order (ls, ws)).
Proof.
  split.
  - intros Hq. unfold resolve_tree_online. eapply walk_local; [exact Hq|apply reached_root].
  - intros ls ws H. eapply walk_order; [|exact H]. exists []. split; constructor.
Qed.

(** Claim C2, witness: the manual 50 % owner of Beta, at depth 5. *)
Lemma owner_line_effective_pct_witness :
  let r := resolve_tree_online Ex.fromisoformat 0 Ex.get_vr 25 Ex.manual_overrides "00000001" in
  let ls := match r with Some (ls, _) => ls | None => [] end in
  let ws := match r with Some (_, ws) => ws | None => [] end in
  let l := nth 7 ls (trunc_line 0) in
  exists ico d m path p c_ico c_name owners o,
    Reached Ex.fromisoformat 0 Ex.get_vr 25 Ex.manual_overrides "00000001" 0 1 ico d m path /\
    Ex.get_vr ico = Some p /\ truthy (_error p) = false /\
    extract Ex.fromisoformat 0 p = (c_ico, c_name, owners) /\
    In o (merge_owners Ex.fromisoformat 0 Ex.get_vr Ex.manual_overrides c_ico owners) /\
    l = fst (owner_line d (label o) m o) /\
    forall s, local_share o = Some s ->
      effective_pct l = Some (m * s * 100)%Q /\
      forall shares, path = map Some shares ->
        effective_pct l = Some (fold_left Qmult (shares ++ [s]) 1 * 100)%Q.
Proof.
  intros r ls ws l.
  apply (owner_line_effective_pct Ex.fromisoformat 0 Ex.get_vr 25 Ex.manual_overrides "00000001" ls ws l).
  - vm_compute. reflexivity.
  - apply nth_In. vm_compute. lia.
  - vm_compute. reflexivity.
Defined.

(** Claim C5, counterexample: with [max_depth = 0] the trace of Alfa has
    four lines, at depths 0, 1, 2 and 3, the last a truncation notice. *)
Lemma max_depth_zero_still_descends :
  option_map (fun st => (map depth (fst st), nth 3 (fst st) (trunc_line 0)))
    (resolve_tree_online Ex.fromisoformat 0 Ex.get_vr 0 Ex.manual_overrides "00000001")
  = Some ([0; 1; 2; 3]%Z, trunc_line 3).
Proof. vm_compute. reflexivity. Qed.

(** Claim C5, witness: the guard at depth 3 with [max_depth = 0], the
    first line of Alfa's walk, the depth bound on its trace, and the shape
    of that trace. *)
Lemma depth_guard_witness :
  let r := resolve_tree_online Ex.fromisoformat 0 Ex.get_vr 0 Ex.manual_overrides "00000001" in
  let ls := match r with Some (ls, _) => ls | None => [] end in
  let ws := match r with Some (_, ws) => ws | None => [] end in
  walk Ex.fromisoformat 0 Ex.get_vr 0 Ex.manual_overrides 1 "00000002" 3 1 ([], [])
    = Some (add_line ([], []) (trunc_line 3))
  /\ (exists p l rest, Ex.get_vr "00000001" = Some p /\ fst (ls, ws) = ([] ++ l :: rest)%list /\
       ((truthy (_error p) = true /\ l = mkLine 0 "" (error_text "00000001" (or_else (_error p) "")) None)
        \/ (exists c_ico c_name owners, truthy (_error p) = false /\
              extract Ex.fromisoformat 0 p = (c_ico, c_name, owners) /\
              l = mkLine 0 "" (header_text c_name c_ico)
                    (if Z.eqb 0 0 then Some (1 * 100)%Q else None))))
  /\ (forall l, In l ls -> (0 <= depth l <= 3)%Z /\ (depth l = 3%Z -> l = trunc_line 3))
  /\ (let x := extract Ex.fromisoformat 0 Ex.payload_A in
      let c_ico := fst (fst x) in let c_name := snd (fst x) in
      let merged := merge_owners Ex.fromisoformat 0 Ex.get_vr Ex.manual_overrides c_ico (snd x) in
      r = Some (mkLine 0 "" (header_text c_name c_ico) (Some (1 * 100)%Q)
             :: flat_map (fun '(lbl, lst) =>
                  mkLine 1 lbl (lbl ++ ":") None
                  :: flat_map (fun o => fst (owner_line 0 lbl 1 o)
                                :: (if is_company_owner o then [trunc_line 3] else [])) lst)
                (group_by_label merged),
             match merged with
             | [] => [mkWarning "unresolved" c_ico c_name (unresolved_text c_name c_ico)]
             | _ => []
             end)).
Proof.
  intros r ls ws.
  destruct (depth_guard Ex.fromisoformat 0 Ex.get_vr 0 Ex.manual_overrides) as [Ha [Hb [Hc Hd]]].
  split; [|split; [|split]].
  - apply (Ha 0%nat "00000002" 3%Z 1%Q ([], [])). lia.
  - apply (Hb 3%nat "00000001" 0%Z 1%Q ([], []) (ls, ws)); [lia|].
    vm_compute. reflexivity.
  - apply (Hc "00000001" ls ws); [reflexivity|]. vm_compute. reflexivity.
  - intros x c_ico c_name merged.
    apply (Hd "00000001" Ex.payload_A c_ico c_name (snd x)); reflexivity.
Defined.

(** Claim C8, witness: the company with an empty record (no owners, no
    override) and Beta (one registry owner and one manual owner). *)
Lemma unresolved_warning_witness :
  (let hdr := mkLine 6 "" (header_text "Neznámý subjekt" "00000003") None in
   let merged := merge_owners Ex.fromisoformat 0 Ex.get_vr Ex.manual_overrides "00000003" [] in
   (merged = [] ->
     walk Ex.fromisoformat 0 Ex.get_vr 25 Ex.manual_overrides 2 "00000003" 6 (1 # 2) ([], [])
     = Some (add_warning (add_line ([], []) hdr)
               (mkWarning "unresolved" "00000003" "Neznámý subjekt"
                  (unresolved_text "Neznámý subjekt" "00000003"))))
   /\ (merged <> [] -> forall st',
     walk Ex.fromisoformat 0 Ex.get_vr 25 Ex.manual_overrides 2 "00000003" 6 (1 # 2) ([], []) = Some st' ->
     forall w, In w (snd st') -> In w (snd (([], []) : State)) \/
       exists o cico nm stc, In o merged /\ snd (owner_line 6 (label o) (1 # 2) o) = Some (cico, nm) /\
         walk Ex.fromisoformat 0 Ex.get_vr 25 Ex.manual_overrides 1 cico (6 + 3) nm ([], []) = Some stc
         /\ In w (snd stc)))
  /\ merge_owners Ex.fromisoformat 0 Ex.get_vr Ex.manual_overrides "00000003" [] = [].
Proof.
  split; [|vm_compute; reflexivity].
  apply (unresolved_warning Ex.fromisoformat 0 Ex.get_vr 25 Ex.manual_overrides 1 "00000003" 6 (1 # 2)
           ([], []) Ex.payload_C "00000003" "Neznámý subjekt" []);
    vm_compute; reflexivity.
Defined.

Lemma ex_reached ico d m path :
  Reached Ex.fromisoformat 0 Ex.get_vr 25 Ex.manual_overrides "00000001" 0 1 ico d m path ->
  In ico ["00000001"; "00000002"; "00000003"].
Proof.
  induction 1 as [|ico d m path p c_ico c_name owners o cico nm Hr IH Hg Hp He Hx Ho Hol].
  - left; reflexivity.
  - destruct IH as [<-|[<-|[<-|[]]]]; vm_compute in Hp; injection Hp as <-;
      vm_compute in Hx; injection Hx as <- <- <-; vm_compute in Ho;
      repeat (destruct Ho as [<-|Ho];
              [vm_compute in Hol; first [discriminate Hol|injection Hol as <- _];
               vm_compute; repeat (first [left; reflexivity|right])|]);
      destruct Ho.
Qed.

Lemma ex_queried i :
  Queried Ex.fromisoformat 0 Ex.get_vr 25 Ex.manual_overrides "00000001" 0 1 i ->
  In i ["00000001"; "00000002"; "00000003"].
Proof.
  intros [ico d m path Hr _|ico d m path p c_ico c_name owners oi os Hr _ Hp _ Hx Hin].
  - exact (ex_reached _ _ _ _ Hr).
  - destruct (ex_reached _ _ _ _ Hr) as [<-|[<-|[<-|[]]]]; vm_compute in Hp; injection Hp as <-;
      vm_compute in Hx; injection Hx as <- <- <-; vm_compute in Hin;
      repeat (destruct Hin as [Hin|Hin];
              [injection Hin as <- _; vm_compute; repeat (first [left; reflexivity|right])|]);
      destruct Hin.
Qed.

(** Claim C9, witness: the registry lookup of the example against one that
    also answers an id the walk never looks up, and the walk order of the
    example's one warning. *)
Lemma resolve_deterministic_witness :
  let g2 := fun i => if String.eqb i "00000009" then Some Ex.payload_A else Ex.get_vr i in
  let r := resolve_tree_online Ex.fromisoformat 0 Ex.get_vr 25 Ex.manual_overrides "00000001" in
  let ls := match r with Some (ls, _) => ls | None => [] end in
  let ws := match r with Some (_, ws) => ws | None => [] end in
  r = resolve_tree_online Ex.fromisoformat 0 g2 25 Ex.manual_overrides "00000001"
  /\ r = Some (ls, ws) /\ ws <> [] /\ in_walk_order (ls, ws).
Proof.
  intros g2 r ls ws.
  assert (E : r = Some (ls, ws)) by (vm_compute; reflexivity).
  split.
  - apply (proj1 (resolve_deterministic Ex.fromisoformat 0 Ex.get_vr g2 25 Ex.manual_overrides "00000001")).
    intros i Hi. apply ex_queried in Hi. destruct Hi as [<-|[<-|[<-|[]]]]; reflexivity.
  - split; [exact E|]. split; [vm_compute; discriminate|].
    exact (proj2 (resolve_deterministic Ex.fromisoformat 0 Ex.get_vr g2 25 Ex.manual_overrides "00000001") ls ws E).
Defined.

End ResolveFacts.

(* ------------------------------------------------------------------ *)
(** ** Registry client *)

Module ClientFacts.
Import Extract Client.

Lemma attempts_spec net n ico st r st' :
  attempts net n ico st = (r, st') ->
  (requests st <= requests st' <= requests st + n)%nat
  /\ (n <> O -> (requests st < requests st')%nat)
  /\ match r with
     | None => cache st' = cache st
     | Some p => cache st' = <[ico := (p, requests st')]> (cache st)
     end.
Proof.
  revert st. induction n as [|n IH]; intros st; simpl.
  - intros [= <- <-]. split; [lia|]. split; [congruence|reflexivity].
  - set (st1 := mkCState (cache st) (S (requests st))).
    assert (Hrec : attempts net n ico st1 = (r, st') ->
      (requests st <= requests st' <= requests st + S n)%nat
      /\ (S n <> O -> (requests st < requests st')%nat)
      /\ match r with
         | None => cache st' = cache st
         | Some p => cache st' = <[ico := (p, requests st')]> (cache st)
         end).
    { intros H. destruct (IH st1 H) as [H1 [_ H3]]. simpl in H1. split; [lia|]. split; [lia|exact H3]. }
    destruct (net (requests st)) as [status body|]; [|exact Hrec].
    destruct (Z.eqb status 200); [destruct body as [p|]; [|exact Hrec]|].
    + intros [= <- <-]. simpl. split; [lia|]. split; [lia|reflexivity].
    + destruct (Z.eqb status 400 || Z.eqb status 404); [|exact Hrec].
      intros [= <- <-]. simpl. split; [lia|]. split; [lia|reflexivity].
Qed.

Lemma attempts_S net n ico st :
  attempts net (S n) ico st
  = let st1 := mkCState (cache st) (S (requests st)) in
    match answer ico (net (requests st)) with
    | Some p => (Some p, _cache_put st1 ico p)
    | None => attempts net n ico st1
    end.
Proof.
  simpl. destruct (net (requests st)) as [status [p|]|]; simpl; [| |reflexivity].
  - destruct (Z.eqb status 200); [reflexivity|].
    destruct (Z.eqb status 400 || Z.eqb status 404); reflexivity.
  - destruct (Z.eqb status 200); [reflexivity|].
    destruct (Z.eqb status 400 || Z.eqb status 404); reflexivity.
Qed.

Lemma attempts_trace net n ico :
  forall st r st', n <> O -> attempts net n ico st = (r, st') ->
  exists j, (1 <= j <= n)%nat /\ requests st' = (requests st + j)%nat
    /\ (forall i, (i < j - 1)%nat -> answer ico (net (requests st + i)%nat) = None)
    /\ r = answer ico (net (requests st + (j - 1))%nat)
    /\ (r = None -> j = n).
Proof.
  induction n as [|n IH]; intros st r st' Hn; [contradiction|].
  rewrite attempts_S. cbv zeta.
  destruct (answer ico (net (requests st))) as [p|] eqn:Ea.
  - intros [= <- <-]. exists 1%nat. simpl. rewrite Nat.add_0_r.
    split; [lia|]. split; [lia|]. split; [intros i Hi; lia|]. split; [symmetry; exact Ea|discriminate].
  - destruct n as [|n'].
    + simpl. intros [= <- <-]. exists 1%nat. simpl. rewrite Nat.add_0_r.
      split; [lia|]. split; [lia|]. split; [intros i Hi; lia|]. split; [symmetry; exact Ea|reflexivity].
    + intros H. destruct (IH _ _ _ ltac:(discriminate) H) as [j [Hj [Hr [Hi [Hans Hnone]]]]].
      simpl in Hr, Hi, Hans. exists (S j). split; [lia|]. split; [simpl; lia|]. split.
      * intros [|i] Hlt; [rewrite Nat.add_0_r; exact Ea|].
        replace (requests st + S i)%nat with (S (requests st + i)) by lia. apply Hi. lia.
      * split; [|intros Hn0; rewrite (Hnone Hn0); reflexivity].
        rewrite Hans. f_equal. f_equal. lia.
Qed.

(** Claim C7 (corrected): a non-forced call that hits the cache returns the
    cached payload, cached error records included, and issues no request;
    a forced call or a miss issues between 1 and [max_retries + 1]
    requests: it goes on while the responses have no [answer] (transport
    errors, unparseable 200 bodies, statuses other than 200, 400 and 404,
    so 429 and 5xx among them) and stops at the first that has one,
    returning it, or raises after [max_retries + 1] requests; a call that
    returns a payload leaves it in the cache row of the normalized id, so
    the next non-forced call returns it without a request; a call that
    raises leaves the cache unchanged. *)
Theorem cache_behaviour net max_retries st ico0 force r st' :
  let ico := Ico.norm_ico ico0 in
  get_vr net max_retries st ico0 force = (r, st') ->
  (force = false -> is_Some (_cache_get st ico) -> r = _cache_get st ico /\ st' = st)
  /\ ((force = true \/ _cache_get st ico = None) ->
      (requests st < requests st' <= requests st + S max_retries)%nat)
  /\ ((force = true \/ _cache_get st ico = None) ->
      exists j, (1 <= j <= S max_retries)%nat /\ requests st' = (requests st + j)%nat
        /\ (forall i, (i < j - 1)%nat -> answer ico (net (requests st + i)%nat) = None)
        /\ r = answer ico (net (requests st + (j - 1))%nat)
        /\ (r = None -> j = S max_retries))
  /\ (forall p, r = Some p -> _cache_get st' ico = Some p
        /\ get_vr net max_retries st' ico0 false = (Some p, st'))
  /\ (r = None -> cache st' = cache st)
  /\ (forall b, answer ico (RespHTTP 429 b) = None
        /\ forall status, (500 <= status <= 599)%Z -> answer ico (RespHTTP status b) = None)
  /\ answer ico RespExc = None /\ answer ico (RespHTTP 200 None) = None.
Proof.
  intros ico Hget.
  assert (Hans : (forall b, answer ico (RespHTTP 429 b) = None
        /\ forall status, (500 <= status <= 599)%Z -> answer ico (RespHTTP status b) = None)
        /\ answer ico RespExc = None /\ answer ico (RespHTTP 200 None) = None).
  { split; [|split; reflexivity]. intros b. split; [destruct b; reflexivity|].
    intros status Hs. unfold answer.
    replace (Z.eqb status 200) with false by (symmetry; apply Z.eqb_neq; lia).
    replace (Z.eqb status 400) with false by (symmetry; apply Z.eqb_neq; lia).
    replace (Z.eqb status 404) with false by (symmetry; apply Z.eqb_neq; lia).
    reflexivity. }
  revert Hget.
  cut (get_vr net max_retries st ico0 force = (r, st') ->
    (force = false -> is_Some (_cache_get st ico) -> r = _cache_get st ico /\ st' = st)
  /\ ((force = true \/ _cache_get st ico = None) ->
      (requests st < requests st' <= requests st + S max_retries)%nat)
  /\ ((force = true \/ _cache_get st ico = None) ->
      exists j, (1 <= j <= S max_retries)%nat /\ requests st' = (requests st + j)%nat
        /\ (forall i, (i < j - 1)%nat -> answer ico (net (requests st + i)%nat) = None)
        /\ r = answer ico (net (requests st + (j - 1))%nat)
        /\ (r = None -> j = S max_retries))
  /\ (forall p, r = Some p -> _cache_get st' ico = Some p
        /\ get_vr net max_retries st' ico0 false = (Some p, st'))
  /\ (r = None -> cache st' = cache st)).
  { intros Hc Hget. destruct (Hc Hget) as [A [B [C [D E]]]]. tauto. }
  unfold get_vr. fold ico.
  destruct force; cbv beta iota.
  - intros H. destruct (attempts_spec _ _ _ _ _ _ H) as [H1 [H2 H3]].
    split; [discriminate|]. split; [intros _; split; [apply H2; discriminate|exact (proj2 H1)]|].
    split; [intros _; eapply attempts_trace; [discriminate|exact H]|].
    split.
    + intros p ->. assert (Hc : _cache_get st' ico = Some p)
        by (unfold _cache_get; rewrite H3, lookup_insert_eq; reflexivity).
      split; [exact Hc|]. simpl. rewrite Hc. reflexivity.
    + intros ->. exact H3.
  - destruct (_cache_get st ico) as [c|] eqn:Ec.
    + intros [= <- <-]. split; [intros _ _; split; reflexivity|].
      split; [intros [[=]|[=]]|]. split; [intros [[=]|[=]]|]. split; [|discriminate].
      intros p [= <-]. split; [exact Ec|]. simpl. fold ico. rewrite Ec. reflexivity.
    + intros H. destruct (attempts_spec _ _ _ _ _ _ H) as [H1 [H2 H3]].
      split; [intros _ [x Hx]; discriminate|]. split; [intros _; split; [apply H2; discriminate|exact (proj2 H1)]|].
      split; [intros _; eapply attempts_trace; [discriminate|exact H]|].
      split.
      * intros p ->. assert (Hc : _cache_get st' ico = Some p)
          by (unfold _cache_get; rewrite H3, lookup_insert_eq; reflexivity).
        split; [exact Hc|]. simpl. fold ico. rewrite Hc. reflexivity.
      * intros ->. exact H3.
Qed.

(** Claim C7, counterexample: on an empty cache, a 500 followed by a 200
    makes the first call issue two requests, so the two calls together
    issue two; and a forced call that only gets 500 answers raises after
    five requests and leaves the old cache row in place. *)
Lemma client_retries_and_failed_refresh :
  let net := fun k => if Nat.eqb k 0 then RespHTTP 500 None else RespHTTP 200 (Some Ex.payload_A) in
  let '(r1, st1) := get_vr net 4 (mkCState ∅ 0) "00000001" false in
  let '(r2, st2) := get_vr net 4 st1 "00000001" false in
  r1 = Some Ex.payload_A /\ r2 = Some Ex.payload_A /\ requests st1 = 2%nat /\ requests st2 = 2%nat
  /\ (let net' := fun _ : nat => RespHTTP 500 None in
      let st := mkCState {[ "00000001" := (Ex.payload_B, 0%nat) ]} 0 in
      let '(r, st') := get_vr net' 4 st "00000001" true in
      r = None /\ _cache_get st' "00000001" = Some Ex.payload_B /\ requests st' = 5%nat).
Proof. vm_compute. repeat split. Qed.

(** Claim C7, witness: the first call of the counterexample. *)
Lemma cache_behaviour_witness :
  let net := fun k => if Nat.eqb k 0 then RespHTTP 500 None else RespHTTP 200 (Some Ex.payload_A) in
  let st0 := mkCState ∅ 0 in
  let res := get_vr net 4 st0 "00000001" false in
  let ico := Ico.norm_ico "00000001" in
  (false = false -> is_Some (_cache_get st0 ico) -> fst res = _cache_get st0 ico /\ snd res = st0)
  /\ ((false = true \/ _cache_get st0 ico = None) ->
      (requests st0 < requests (snd res) <= requests st0 + S 4)%nat)
  /\ ((false = true \/ _cache_get st0 ico = None) ->
      exists j, (1 <= j <= S 4)%nat /\ requests (snd res) = (requests st0 + j)%nat
        /\ (forall i, (i < j - 1)%nat -> answer ico (net (requests st0 + i)%nat) = None)
        /\ fst res = answer ico (net (requests st0 + (j - 1))%nat)
        /\ (fst res = None -> j = S 4))
  /\ (forall p, fst res = Some p -> _cache_get (snd res) ico = Some p
        /\ get_vr net 4 (snd res) "00000001" false = (Some p, snd res))
  /\ (fst res = None -> cache (snd res) = cache st0)
  /\ (forall b, answer ico (RespHTTP 429 b) = None
        /\ forall status, (500 <= status <= 599)%Z -> answer ico (RespHTTP status b) = None)
  /\ answer ico RespExc = None /\ answer ico (RespHTTP 200 None) = None.
Proof.
  intros net st0 res.
  apply (cache_behaviour net 4 st0 "00000001" false (fst res) (snd res)).
  apply surjective_pairing.
Defined.

End ClientFacts.

(* ------------------------------------------------------------------ *)
(** ** Beneficial-owner evaluation *)

Module AppFacts.
Import App PrimFloat.

Lemma individual_reasons_no_block thr v b t : ~ In (RBlock b t) (individual_reasons thr v).
Proof.
  unfold individual_reasons.
  destruct (qgt (cap v) thr), (qgt (vote v) thr), (veto v), (org_majority v), (substitute_ubo v);
    simpl; intuition discriminate.
Qed.

Lemma individual_reason_map_no_block thr fp n rs b t :
  individual_reason_map thr fp !! n = Some rs -> ~ In (RBlock b t) rs.
Proof.
  unfold individual_reason_map. rewrite lookup_omap.
  destruct (fp !! n) as [v|]; simpl; [|discriminate].
  unfold nonempty_reasons. destruct (individual_reasons thr v) eqn:E; [discriminate|].
  intros [= <-]. rewrite <- E. apply individual_reasons_no_block.
Qed.


Lemma block_step_keeps fp b t acc m n v :
  fp !! n = Some v ->
  fst acc !! n = Some v /\ (exists rs, snd acc !! n = Some rs /\ In (RBlock b t) rs) ->
  fst (block_step fp b t acc m) !! n = Some v
  /\ exists rs, snd (block_step fp b t acc m) !! n = Some rs /\ In (RBlock b t) rs.
Proof.
  intros Hn [Hu [rs [Hr Hin]]]. destruct acc as [ubo reasons]. unfold block_step.
  destruct (fp !! m) as [w|] eqn:Em; simpl in *; [|split; [exact Hu|exists rs; split; assumption]].
  destruct (decide (m = n)) as [->|Hne].
  - rewrite !lookup_insert_eq. split; [congruence|]. eexists; split; [reflexivity|].
    apply in_or_app. right. left. reflexivity.
  - rewrite !lookup_insert_ne by exact Hne. split; [exact Hu|exists rs; split; assumption].
Qed.

Lemma block_step_adds fp b t acc n v :
  fp !! n = Some v ->
  fst (block_step fp b t acc n) !! n = Some v
  /\ exists rs, snd (block_step fp b t acc n) !! n = Some rs /\ In (RBlock b t) rs.
Proof.
  intros Hn. destruct acc as [ubo reasons]. unfold block_step. rewrite Hn. simpl.
  rewrite !lookup_insert_eq. split; [reflexivity|]. eexists; split; [reflexivity|].
  apply in_or_app. right. left. reflexivity.
Qed.

Lemma fold_block_promotes fp b t members :
  forall acc n v, fp !! n = Some v ->
  (In n members \/ (fst acc !! n = Some v /\ exists rs, snd acc !! n = Some rs /\ In (RBlock b t) rs)) ->
  let r := fold_left (block_step fp b t) members acc in
  fst r !! n = Some v /\ exists rs, snd r !! n = Some rs /\ In (RBlock b t) rs.
Proof.
  induction members as [|m ms IH]; intros acc n v Hn H; simpl.
  - destruct H as [[]|H]. exact H.
  - apply IH; [exact Hn|].
    destruct (in_dec string_dec n ms) as [Hms|Hms]; [left; exact Hms|right].
    destruct H as [[->|Hin]|H]; [apply block_step_adds, Hn|contradiction|].
    apply block_step_keeps; assumption.
Qed.

Lemma fold_block_only fp b t members :
  forall acc n b' t',
  (exists rs, snd (fold_left (block_step fp b t) members acc) !! n = Some rs /\ In (RBlock b' t') rs) ->
  (exists rs, snd acc !! n = Some rs /\ In (RBlock b' t') rs) \/ (In n members /\ is_Some (fp !! n)).
Proof.
  induction members as [|m ms IH]; intros acc n b' t' H; simpl in *; [left; exact H|].
  destruct (IH _ _ _ _ H) as [H'|[Hin Hs]]; [|right; split; [right; exact Hin|exact Hs]].
  destruct acc as [ubo reasons]. unfold block_step in H'.
  destruct (fp !! m) as [w|] eqn:Em; [|left; exact H'].
  destruct (decide (m = n)) as [->|Hne].
  - right. split; [left; reflexivity|]. rewrite Em. eexists; reflexivity.
  - left. simpl in H'. rewrite lookup_insert_ne in H' by exact Hne. exact H'.
Qed.

(** Claim C6 (code bug): the block total is a float sum and the threshold
    [threshold_pct / 100.0] a float, so a block whose shares add up to the
    threshold exactly can still be promoted.  Two members with 10 % and
    20 % voting ([10 / 100.0] and [20 / 100.0]) at a 30 % threshold:
    [0 + 0.1 + 0.2 = 0.30000000000000004 > 0.3], so neither member
    passes an individual test, yet both become beneficial owners with the
    voting-block reason as their only reason, although 10 % + 20 % = 30 %
    is not strictly above the threshold. *)
Theorem voting_block_float_sum_promotes :
  let a := mkFinal (10 / 100)%float (10 / 100)%float false false false in
  let b := mkFinal (20 / 100)%float (20 / 100)%float false false false in
  let fp := <["B" := b]> (<["A" := a]> ∅) : gmap string FinalPerson in
  let total := block_total fp ["A"; "B"] in
  let r := evaluate_ubo fp ["A"; "B"] "Blok" 30%float in
  ((10 # 100) + (20 # 100) == 30 # 100)%Q
  /\ individual_ubo (30 / 100)%float fp = ∅
  /\ individual_reason_map (30 / 100)%float fp = ∅
  /\ total = (0 + 10 / 100 + 20 / 100)%float
  /\ total <> (30 / 100)%float
  /\ qgt total (30 / 100)%float = true
  /\ fst r !! "A" = Some a /\ fst r !! "B" = Some b
  /\ snd r !! "A" = Some [RBlock "Blok" total]
  /\ snd r !! "B" = Some [RBlock "Blok" total].
Proof.
  intros a b fp total r.
  split; [reflexivity|].
  split; [vm_compute; reflexivity|]. split; [vm_compute; reflexivity|].
  split; [vm_compute; reflexivity|].
  split; [vm_compute; discriminate|].
  split; [vm_compute; reflexivity|].
  vm_compute. repeat split.
Qed.

Lemma clamp01_bounds x : (0 <= Share.clamp01 x <= 1)%Q.
Proof.
  unfold Share.clamp01. split; [apply Q.le_max_l|].
  apply Q.max_lub; [discriminate|apply Q.le_min_l].
Qed.

(** Claim C10 (confirmed): a line classified as a person owner that carries
    no effective_pct, no parseable share and no "efektivně" marker still
    creates or updates the entry under the person's name: its ownership and
    voting are unchanged (0 for a new entry), a path with no effective value
    is appended, and no other entry changes.  After all lines, every
    entry's ownership and voting lie in [0, 1]. *)
Theorem person_line_contributes_zero :
  (forall st ln,
     let t := Resolve.text ln in
     let nm := owner_name t in
     let e := default empty_entry (persons st !! nm) in
     String.eqb t "" = false -> RE_COMPANY_HEADER_match t = false ->
     Chars.ends_with_char ":"%char t = false -> ICO_IN_LINE_search t = false ->
     Resolve.effective_pct ln = None -> parse_pct_from_text t = None -> efektivne_search t = None ->
     exists e' pd, persons (cep_step st ln) !! nm = Some e'
       /\ ownership e' = ownership e /\ voting e' = voting e
       /\ paths e' = (paths e ++ [(pd, None, t)])%list
       /\ (forall n, n <> nm -> persons (cep_step st ln) !! n = persons st !! n))
  /\ (forall lines n e, compute_effective_persons lines !! n = Some e ->
       (0 <= ownership e <= 1)%Q /\ (0 <= voting e <= 1)%Q).
Proof.
  split.
  - intros st ln. cbv zeta. intros H1 H2 H3 H4 H5 H6 H7.
    unfold cep_step. rewrite H1, H2, H3, H4, H5. simpl option_map.
    eexists _, _. cbn [persons]. rewrite lookup_insert_eq. split; [reflexivity|].
    unfold person_update. rewrite H6, H7. simpl. split; [reflexivity|]. split; [reflexivity|].
    split; [reflexivity|]. intros n Hn. rewrite lookup_insert_ne by congruence. reflexivity.
  - intros lines n e. unfold compute_effective_persons. rewrite lookup_fmap.
    destruct (persons _ !! n) as [e0|]; simpl; [|discriminate].
    intros [= <-]. simpl. split; apply clamp01_bounds.
Qed.

(** Claim C10, witness: the owner line "Jan Novák" with no share, on an
    empty scan state, and a three-line trace. *)
Lemma person_line_contributes_zero_witness :
  (let st := mkCep ∅ [] None in
   let ln := Resolve.mkLine 2 "Akcionáři" "Jan Novák" None in
   let t := Resolve.text ln in
   let nm := owner_name t in
   let e := default empty_entry (persons st !! nm) in
   exists e' pd, persons (cep_step st ln) !! nm = Some e'
     /\ ownership e' = ownership e /\ voting e' = voting e
     /\ paths e' = (paths e ++ [(pd, None, t)])%list
     /\ (forall n, n <> nm -> persons (cep_step st ln) !! n = persons st !! n))
  /\ (let lines := [Resolve.mkLine 0 "" "Alfa s.r.o. (IČO 00000001)" (Some 100%Q);
                    Resolve.mkLine 1 "Akcionáři" "Akcionáři:" None;
                    Resolve.mkLine 2 "Akcionáři" "Jan Novák — 100.00% (efektivně 100.00%)" (Some 100%Q)] in
      let e := default empty_entry (compute_effective_persons lines !! "Jan Novák") in
      (0 <= ownership e <= 1)%Q /\ (0 <= voting e <= 1)%Q).
Proof.
  split.
  - intros st ln. apply (proj1 person_line_contributes_zero st ln); vm_compute; reflexivity.
  - intros lines e. apply (proj2 person_line_contributes_zero lines "Jan Novák" e).
    vm_compute. reflexivity.
Defined.

End AppFacts.

(* ------------------------------------------------------------------ *)
(** ** Person entries and the beneficial-owner decision *)

Module PersonFacts.
Import App Inv PrimFloat.

Lemma person_update_shape e pd pm ne t :
  map path_text (paths (person_update e pd pm ne t)) = (map path_text (paths e) ++ [t])%list
  /\ (entry_ok e -> entry_ok (person_update e pd pm ne t)).
Proof.
  unfold person_update, entry_ok.
  destruct (match ne with
            | Some ne0 => (None, Some ne0, "node_eff(person)")
            | None => _ end) as [[loc eff] src].
  destruct eff as [v|]; simpl; rewrite map_app; simpl; split; try reflexivity;
    intros [H1 H2]; rewrite length_app, length_app, H2; simpl; (split; [try rewrite H1; reflexivity|reflexivity]).
Qed.

Lemma cep_step_inv pre st ln :
  cep_inv pre st -> cep_inv (pre ++ [ln])%list (cep_step st ln).
Proof.
  intros H nm. unfold person_lines_of. rewrite List.filter_app, map_app. fold (person_lines_of nm pre).
  unfold cep_step, is_person_line. simpl List.filter.
  destruct (String.eqb (Resolve.text ln) "") eqn:E1; simpl;
    [rewrite app_nil_r; apply H|].
  destruct (RE_COMPANY_HEADER_match (Resolve.text ln)) eqn:E2; simpl;
    [rewrite app_nil_r; apply H|].
  destruct (Chars.ends_with_char ":"%char (Resolve.text ln)) eqn:E3; simpl;
    [rewrite app_nil_r; apply H|].
  destruct (ICO_IN_LINE_search (Resolve.text ln)) eqn:E4; simpl;
    [rewrite app_nil_r; apply H|].
  destruct (String.eqb (owner_name (Resolve.text ln)) nm) eqn:E5.
  - apply String.eqb_eq in E5. subst nm. simpl. rewrite lookup_insert_eq. simpl.
    destruct (H (owner_name (Resolve.text ln))) as [Hp He].
    set (e := default empty_entry (persons st !! owner_name (Resolve.text ln))).
    match goal with |- context [person_update e ?a ?b ?c ?d] =>
      destruct (person_update_shape e a b c d) as [S1 S2] end.
    split; [rewrite S1, <- Hp; reflexivity|].
    intros e' [= <-]. split.
    + apply S2. unfold e. destruct (persons st !! owner_name (Resolve.text ln)) as [x|] eqn:Ex.
      * apply (He x eq_refl).
      * split; reflexivity.
    + intros Hn. apply (f_equal (map path_text)) in Hn. rewrite S1 in Hn.
      simpl in Hn. destruct (map path_text (paths e)); discriminate.
  - apply String.eqb_neq in E5. simpl. rewrite app_nil_r.
    rewrite lookup_insert_ne by exact E5. apply H.
Qed.

Lemma cep_fold_inv lines :
  forall pre st, cep_inv pre st -> cep_inv (pre ++ lines)%list (fold_left cep_step lines st).
Proof.
  induction lines as [|ln t IH]; intros pre st H; simpl; [rewrite app_nil_r; exact H|].
  replace (pre ++ ln :: t)%list with ((pre ++ [ln]) ++ t)%list by (rewrite <- app_assoc; reflexivity).
  apply IH, cep_step_inv, H.
Qed.

(** [compute_effective_persons] (app.py, lines 578-685): a name gets an
    entry exactly when some person line of the trace carries that name; the
    entry's path texts are those lines' texts, in trace order; its
    ownership equals its voting share and lies in [0, 1]; it keeps one
    debug path per path. *)
Theorem person_paths_exact lines nm :
  let r := compute_effective_persons lines in
  map path_text (paths (default empty_entry (r !! nm)))
    = map Resolve.text (person_lines_of nm lines)
  /\ (is_Some (r !! nm) <-> person_lines_of nm lines <> [])
  /\ forall e, r !! nm = Some e ->
       ownership e = voting e /\ (0 <= ownership e <= 1)%Q
       /\ List.length (debug_paths e) = List.length (paths e).
Proof.
  intros r.
  assert (Hi : cep_inv lines (fold_left cep_step lines (mkCep ∅ [] None))).
  { apply (cep_fold_inv lines [] (mkCep ∅ [] None)). intros n. simpl. split; [reflexivity|].
    intros e He. rewrite lookup_empty in He. discriminate. }
  destruct (Hi nm) as [Hp He].
  unfold r, compute_effective_persons. rewrite lookup_fmap.
  destruct (persons (fold_left cep_step lines (mkCep ∅ [] None)) !! nm) as [x|] eqn:Ex; simpl in *.
  - destruct (He x eq_refl) as [[Ho Hl] Hne]. split; [exact Hp|]. split.
    + split; [|intros _; eexists; reflexivity]. intros _ Hn. rewrite Hn in Hp. simpl in Hp.
      apply Hne. destruct (paths x); [reflexivity|discriminate].
    + intros e [= <-]. simpl. rewrite Ho. split; [reflexivity|]. split; [apply AppFacts.clamp01_bounds|exact Hl].
  - split; [exact Hp|]. split.
    + split; [intros [? [=]]|]. intros Hn. exfalso. apply Hn.
      destruct (person_lines_of nm lines); [reflexivity|discriminate].
    + intros e [=].
Qed.

Lemma individual_reasons_nil thr v :
  individual_reasons thr v <> [] <->
  ((thr <? cap v)%float = true \/ (thr <? vote v)%float = true \/ veto v = true
   \/ org_majority v = true \/ substitute_ubo v = true).
Proof.
  unfold individual_reasons, qgt.
  destruct (thr <? cap v)%float, (thr <? vote v)%float, (veto v), (org_majority v), (substitute_ubo v);
    simpl; split; intros H; try discriminate; try tauto;
    destruct H as [H|[H|[H|[H|H]]]]; discriminate.
Qed.

Lemma fold_block_fst fp b t members :
  forall acc n,
  fst (fold_left (block_step fp b t) members acc) !! n
  = if in_dec string_dec n members then
      match fp !! n with Some v => Some v | None => fst acc !! n end
    else fst acc !! n.
Proof.
  induction members as [|m ms IH]; intros acc n; cbn [fold_left]; [reflexivity|].
  rewrite IH. destruct acc as [ubo reasons].
  destruct (in_dec string_dec n ms) as [H1|H1], (in_dec string_dec n (m :: ms)) as [H2|H2];
    [| exfalso; apply H2; right; exact H1 | |].
  - unfold block_step. destruct (fp !! m) as [w|] eqn:Em; cbn [fst]; [|reflexivity].
    destruct (fp !! n) eqn:En; [reflexivity|].
    destruct (decide (m = n)) as [->|Hne]; [congruence|]. rewrite lookup_insert_ne by exact Hne. reflexivity.
  - destruct H2 as [->|H2]; [|contradiction].
    unfold block_step. destruct (fp !! n) as [w|] eqn:Em; cbn [fst]; [|reflexivity].
    rewrite lookup_insert_eq. reflexivity.
  - unfold block_step. destruct (fp !! m) as [w|] eqn:Em; cbn [fst]; [|reflexivity].
    destruct (decide (m = n)) as [->|Hne]; [exfalso; apply H2; left; reflexivity|].
    rewrite lookup_insert_ne by exact Hne. reflexivity.
Qed.

Lemma fold_block_snd fp b t members :
  forall acc n,
  (forall rs, snd acc !! n = Some rs -> rs <> []) ->
  (is_Some (snd (fold_left (block_step fp b t) members acc) !! n)
   <-> is_Some (snd acc !! n) \/ (In n members /\ is_Some (fp !! n)))
  /\ (forall rs, snd (fold_left (block_step fp b t) members acc) !! n = Some rs -> rs <> []).
Proof.
  induction members as [|m ms IH]; intros acc n Hacc; simpl.
  { split; [split; [intros H; left; exact H|intros [H|[[] _]]; exact H]|exact Hacc]. }
  destruct acc as [ubo reasons].
  assert (Hstep : (is_Some (snd (block_step fp b t (ubo, reasons) m) !! n)
                   <-> is_Some (reasons !! n) \/ (m = n /\ is_Some (fp !! n)))
                  /\ forall rs, snd (block_step fp b t (ubo, reasons) m) !! n = Some rs -> rs <> []).
  { unfold block_step. destruct (fp !! m) as [w|] eqn:Em; simpl.
    - destruct (decide (m = n)) as [->|Hne].
      + rewrite lookup_insert_eq. split.
        * split; [intros _; right; split; [reflexivity|rewrite Em; eexists; reflexivity]|intros _; eexists; reflexivity].
        * intros rs [= <-]. destruct (default [] (reasons !! n)); discriminate.
      + rewrite lookup_insert_ne by exact Hne. split; [|exact Hacc].
        split; [intros H; left; exact H|intros [H|[H _]]; [exact H|contradiction]].
    - split; [|exact Hacc]. split; [intros H; left; exact H|].
      intros [H|[-> H]]; [exact H|rewrite Em in H; destruct H as [? [=]]]. }
  destruct Hstep as [Hs1 Hs2].
  destruct (IH (block_step fp b t (ubo, reasons) m) n Hs2) as [H1 H2].
  split; [|exact H2]. rewrite H1, Hs1. simpl. intuition.
Qed.

(** The evaluation of one voting block (app.py, lines 1282-1319): a person
    is a beneficial owner exactly when it has computed values and either one
    of its own tests holds (capital or vote share above the threshold, veto,
    organ majority, substitute owner), or it is a member of a non-empty
    block whose summed vote share exceeds the threshold.  The comparisons
    are the code's float comparisons: [thr = threshold_pct / 100.0] and the
    block total is the float sum of [block_total]. Exactly the owners get a
    reasons entry, and no reasons list is empty. *)
Theorem evaluate_ubo_spec fp members bname tp n :
  let thr := (tp / 100)%float in
  let total := block_total fp members in
  let r := evaluate_ubo fp members bname tp in
  (forall v, fst r !! n = Some v <->
     fp !! n = Some v
     /\ (((thr <? cap v)%float = true \/ (thr <? vote v)%float = true \/ veto v = true
          \/ org_majority v = true \/ substitute_ubo v = true)
         \/ (members <> [] /\ (thr <? total)%float = true /\ In n members)))
  /\ (is_Some (fst r !! n) <-> is_Some (snd r !! n))
  /\ (forall rs, snd r !! n = Some rs -> rs <> []).
Proof.
  intros thr total r.
  assert (Hiu : forall v, individual_ubo thr fp !! n = Some v <->
                 fp !! n = Some v /\ individual_reasons thr v <> []).
  { intros v. unfold individual_ubo. rewrite lookup_omap.
    destruct (fp !! n) as [w|]; simpl; [|split; [intros [=]|intros [[=] _]]].
    destruct (individual_reasons thr w) eqn:E; split.
    - intros [=].
    - intros [[= <-] H]. contradiction.
    - intros [= <-]. split; [reflexivity|rewrite E; discriminate].
    - intros [[= <-] _]. reflexivity. }
  assert (Hir : is_Some (individual_ubo thr fp !! n) <-> is_Some (individual_reason_map thr fp !! n)).
  { unfold individual_ubo, individual_reason_map. rewrite !lookup_omap.
    destruct (fp !! n) as [w|]; simpl; [|split; intros [? [=]]]. unfold nonempty_reasons.
    destruct (individual_reasons thr w); split; intros [x Hx]; try discriminate; eexists; reflexivity. }
  assert (Hine : forall rs, individual_reason_map thr fp !! n = Some rs -> rs <> []).
  { unfold individual_reason_map. rewrite lookup_omap. destruct (fp !! n) as [w|]; simpl; [|discriminate].
    unfold nonempty_reasons. destruct (individual_reasons thr w); [discriminate|].
    intros rs [= <-]. discriminate. }
  unfold r, evaluate_ubo. fold thr total.
  destruct members as [|m0 ms0] eqn:Hm.
  { simpl. split; [|split; [exact Hir|exact Hine]].
    intros v. rewrite Hiu, individual_reasons_nil. split; [tauto|].
    intros [H [H'|[H' _]]]; [tauto|congruence]. }
  rewrite <- Hm.
  unfold qgt. destruct (thr <? total)%float eqn:Et.
  - destruct (fold_block_snd fp bname total members (individual_ubo thr fp, individual_reason_map thr fp) n Hine)
      as [Hs1 Hs2].
    split; [|split; [|exact Hs2]].
    + intros v. rewrite fold_block_fst. simpl.
      destruct (in_dec string_dec n members) as [Hin|Hin].
      * destruct (fp !! n) as [w|] eqn:Ew.
        -- split; [intros [= <-]; split; [reflexivity|right; split; [rewrite Hm; discriminate|split; [first [reflexivity|assumption]|assumption]]]|].
           intros [[= <-] _]. reflexivity.
        -- rewrite Hiu. split; intros [H _]; congruence.
      * rewrite Hiu, individual_reasons_nil. split; [tauto|].
        intros [H [H'|[_ [_ H']]]]; [tauto|contradiction].
    + rewrite Hs1. simpl. rewrite fold_block_fst. simpl.
      destruct (in_dec string_dec n members) as [Hin|Hin].
      * destruct (fp !! n) as [w|] eqn:Ew.
        -- split; [intros _; right; split; [exact Hin|eexists; reflexivity]|intros _; eexists; reflexivity].
        -- rewrite <- Hir. split; [intros H; left; exact H|intros [H|[_ [? [=]]]]; exact H].
      * rewrite <- Hir. split; [intros H; left; exact H|intros [H|[H _]]; [exact H|contradiction]].
  - assert (Hn : (thr <? total)%float <> true) by congruence.
    simpl. split; [|split; [exact Hir|exact Hine]].
    intros v. rewrite Hiu, individual_reasons_nil. split; [tauto|].
    intros [H [H'|[_ [H' _]]]]; [tauto|congruence].
Qed.

End PersonFacts.

(* ------------------------------------------------------------------ *)
(** ** Cache keys of the registry client *)

Module CacheFacts.
Import Chars Extract Client.

Lemma filter_digits_all (l : list ascii) :
  Forall (fun c => is_digit c = true) l -> List.filter is_digit l = l.
Proof. induction 1 as [|c t Hc _ IH]; simpl; [reflexivity|rewrite Hc, IH; reflexivity]. Qed.

Lemma norm_ico_twice s : Ico.norm_ico (Ico.norm_ico s) = Ico.norm_ico s.
Proof.
  unfold Ico.norm_ico, Ico.only_digits.
  pose proof (IcoFacts.filter_all_digits (chars s)) as Hd.
  set (d := List.filter is_digit (chars s)) in *.
  destruct (Nat.eqb (List.length d) 7) eqn:E.
  - rewrite IcoFacts.chars_of_chars. simpl.
    replace (is_digit "0"%char) with true by reflexivity.
    rewrite filter_digits_all by exact Hd. apply Nat.eqb_eq in E. simpl. rewrite E. reflexivity.
  - rewrite IcoFacts.chars_of_chars, filter_digits_all by exact Hd. rewrite E. reflexivity.
Qed.

(** [norm_ico] (ares_vr_client.py, lines 19-23) is idempotent: a
    normalised id normalises to itself. *)
Theorem norm_ico_idempotent s : Ico.norm_ico (Ico.norm_ico s) = Ico.norm_ico s.
Proof. exact (norm_ico_twice s). Qed.

Lemma attempts_frame net n ico st r st' j :
  attempts net n ico st = (r, st') -> j <> ico -> cache st' !! j = cache st !! j.
Proof.
  intros H Hj. destruct (ClientFacts.attempts_spec _ _ _ _ _ _ H) as [_ [_ H3]].
  destruct r as [p|]; rewrite H3; [rewrite lookup_insert_ne by congruence|]; reflexivity.
Qed.

(** [get_vr] (ares_vr_client.py, lines 84-134) touches no cache entry but
    the one of the normalised id, and a call with an id behaves exactly as
    the call with its normalised form. *)
Theorem get_vr_keys net max_retries st ico0 force r st' :
  get_vr net max_retries st ico0 force = (r, st') ->
  (forall j, j <> Ico.norm_ico ico0 -> cache st' !! j = cache st !! j)
  /\ get_vr net max_retries st (Ico.norm_ico ico0) force = (r, st').
Proof.
  intros H. split.
  - intros j Hj. unfold get_vr in H.
    destruct (if force then None else _cache_get st (Ico.norm_ico ico0)).
    + injection H as _ <-. reflexivity.
    + eapply attempts_frame; eassumption.
  - unfold get_vr in *. rewrite norm_ico_twice. exact H.
Qed.

Lemma get_vr_keys_witness :
  let net := fun _ : nat => RespHTTP 200 (Some Ex.payload_A) in
  let st0 := mkCState ∅ 0 in
  let res := get_vr net 2 st0 "1234567" false in
  (forall j, j <> Ico.norm_ico "1234567" -> cache (snd res) !! j = cache st0 !! j)
  /\ get_vr net 2 st0 (Ico.norm_ico "1234567") false = (fst res, snd res).
Proof.
  intros net st0 res.
  apply (get_vr_keys net 2 st0 "1234567" false (fst res) (snd res)).
  apply surjective_pairing.
Defined.

End CacheFacts.

(* ------------------------------------------------------------------ *)
(** ** Ranges of parsed shares, extracted owners and trace lines *)

Module BoundFacts.
Import Chars Extract Resolve Inv.

Lemma clamp100_bounds x : in100 (clamp100 x).
Proof.
  unfold in100, clamp100. split.
  - apply Q.le_max_l.
  - apply Q.max_lub; [discriminate|apply Q.le_min_l].
Qed.

Lemma layer_result_bounds r v : Share.layer_result r = Some v -> in01 v.
Proof.
  unfold Share.layer_result. destruct (snd r); [|discriminate].
  intros [= <-]. apply AppFacts.clamp01_bounds.
Qed.

Lemma layer_result100_bounds r v : layer_result100 r = Some v -> in100 v.
Proof.
  unfold layer_result100. destruct (snd r); [|discriminate].
  intros [= <-]. apply clamp100_bounds.
Qed.

Lemma parse_pct_bounds s v : Share.parse_pct_from_text s = Some v -> in01 v.
Proof.
  unfold Share.parse_pct_from_text.
  destruct (strip_l (chars s)); [discriminate|].
  repeat match goal with
  | |- match ?x with Some _ => _ | None => _ end = Some v -> _ =>
      destruct x eqn:?; [intros [= <-]; eapply layer_result_bounds; eassumption|]
  end.
  apply layer_result_bounds.
Qed.

Lemma parse_effective_bounds s v : Share.parse_effective_from_text s = Some v -> in01 v.
Proof.
  unfold Share.parse_effective_from_text.
  destruct (Share.search Share.EFEKTIVNE_RE (strip_l (chars s))); [|discriminate].
  intros [= <-]. apply AppFacts.clamp01_bounds.
Qed.

Lemma parse_pct100_bounds s v : _parse_pct_from_text s = Some v -> in100 v.
Proof.
  unfold _parse_pct_from_text.
  destruct (strip_l (chars s)); [discriminate|].
  repeat match goal with
  | |- match ?x with Some _ => _ | None => _ end = Some v -> _ =>
      destruct x eqn:?; [intros [= <-]; eapply layer_result100_bounds; eassumption|]
  end.
  apply layer_result100_bounds.
Qed.

Lemma podil_share_bounds ps v : fst (_parse_share_from_podil_list ps) = Some v -> in100 v.
Proof.
  unfold _parse_share_from_podil_list.
  match goal with |- context [fold_left ?f ps ?a] => destruct (fold_left f ps a) as [[s fnd] raws] end.
  destruct fnd; simpl; [intros [= <-]; apply clamp100_bounds|discriminate].
Qed.

(** The share parsers never return a value out of range, whatever the
    text: [parse_pct_from_text] and [parse_effective_from_text]
    (ownership_resolve_online.py) return a fraction in [0, 1];
    [_parse_pct_from_text] and [_parse_share_from_podil_list]
    (ares_vr_extract.py) return a percentage in [0, 100]. *)
Theorem share_parsers_range s ps :
  (forall v, Share.parse_pct_from_text s = Some v -> (0 <= v <= 1)%Q)
  /\ (forall v, Share.parse_effective_from_text s = Some v -> (0 <= v <= 1)%Q)
  /\ (forall v, _parse_pct_from_text s = Some v -> (0 <= v <= 100)%Q)
  /\ (forall v, fst (_parse_share_from_podil_list ps) = Some v -> (0 <= v <= 100)%Q).
Proof.
  split; [apply parse_pct_bounds|]. split; [apply parse_effective_bounds|].
  split; [apply parse_pct100_bounds|apply podil_share_bounds].
Qed.

Lemma normalize_ico_ok x i : Ico._normalize_ico x = Some i -> ico_ok i.
Proof.
  unfold Ico._normalize_ico, ico_ok.
  destruct x as [[|c s]|]; try discriminate.
  destruct (List.filter is_digit (chars (strip (String c s)))) as [|c0 d] eqn:Ed; [discriminate|].
  assert (Hd : Forall (fun c => is_digit c = true) (c0 :: d))
    by (rewrite <- Ed; apply IcoFacts.filter_all_digits).
  intros [= <-]. unfold zfill, Ico.all_digits.
  change (String c0 (of_chars d)) with (of_chars (c0 :: d)).
  rewrite !IcoFacts.chars_of_chars, !IcoFacts.length_of_chars, length_app, repeat_length.
  split; [|lia].
  apply Forall_app. split; [|exact Hd].
  apply List.Forall_forall. intros y Hy. apply repeat_spec in Hy. subst y. reflexivity.
Qed.

Lemma assoc_set_in k v d k' x : In (k', x) (assoc_set k v d) -> In (k', x) d \/ x = v.
Proof.
  induction d as [|[k0 v0] t IH]; simpl.
  - intros [[= _ <-]|[]]. right. reflexivity.
  - destruct (String.eqb (fst k) (fst k0) && String.eqb (snd k) (snd k0)).
    + intros [[= _ <-]|H]; [right; reflexivity|left; right; exact H].
    + intros [H|H]; [left; left; exact H|]. destruct (IH H) as [H'|H']; [left; right; exact H'|right; exact H'].
Qed.

Lemma latest_step_ok fio dmin lbl latest sp :
  (forall k r, In (k, r) latest -> latest_ok r) ->
  forall k r, In (k, r) (latest_step fio dmin lbl latest sp) -> latest_ok r.
Proof.
  intros H. unfold latest_step.
  destruct (negb (_is_active_item (sp_datumVymazu sp))); [exact H|].
  destruct (match sp_osoba sp with Some o => pravnickaOsoba o | None => None end) as [po|];
    [|destruct (match sp_osoba sp with Some o => fyzickaOsoba o | None => None end) as [fo|]; [|exact H]];
    (match goal with |- context [if ?c then _ else _] => destruct c end; [|exact H]);
    intros k r Hin; apply assoc_set_in in Hin; destruct Hin as [Hin| ->]; try (eapply H; exact Hin);
    unfold latest_ok; simpl; [apply normalize_ico_ok|reflexivity].
Qed.

Lemma extract_owners_ok fio dmin p c_ico c_name owners :
  extract_current_owners fio dmin p = (c_ico, c_name, owners) ->
  (c_ico = "" \/ ico_ok c_ico) /\ forall o, In o owners -> owner_ok o.
Proof.
  unfold extract_current_owners.
  assert (Hci : or_else (Ico._normalize_ico (Some (strip (or_else (icoId p) "")))) "" = ""
                \/ ico_ok (or_else (Ico._normalize_ico (Some (strip (or_else (icoId p) "")))) "")).
  { destruct (Ico._normalize_ico (Some (strip (or_else (icoId p) "")))) as [i|] eqn:Ei; [|left; reflexivity].
    right. simpl. destruct i as [|c i'] eqn:E.
    - apply normalize_ico_ok in Ei. destruct Ei as [_ Hl]. simpl in Hl. lia.
    - apply (normalize_ico_ok _ _ Ei). }
  destruct (_pick_primary_or_record (zaznamy p)) as [z|]; intros [= <- _ <-].
  2:{ split; [exact Hci|intros o []]. }
  split; [exact Hci|]. intros o Ho. apply in_app_or in Ho. destruct Ho as [Ho|Ho].
  - unfold spolecnici_owners in Ho.
    set (latest := fold_left _ (spolecnici z) []) in Ho.
    assert (Hl : forall k r, In (k, r) latest -> latest_ok r).
    { unfold latest.
      assert (G : forall bl acc, (forall k r, In (k, r) acc -> latest_ok r) ->
        forall k r, In (k, r) (fold_left (fun latest blok =>
          if negb (_is_active_item (b_datumVymazu blok)) then latest else
          fold_left (latest_step fio dmin (or_else (b_nazevOrganu blok) "Společníci")) (b_spolecnik blok) latest) bl acc) -> latest_ok r).
      { induction bl as [|b bl IH]; intros acc Hacc; simpl; [exact Hacc|].
        apply IH. destruct (negb (_is_active_item (b_datumVymazu b))); [exact Hacc|].
        generalize dependent acc. induction (b_spolecnik b) as [|sp sps IHs]; intros acc Hacc; simpl; [exact Hacc|].
        apply IHs. apply latest_step_ok, Hacc. }
      apply G. intros k r []. }
    apply in_map_iff in Ho. destruct Ho as [[k r] [Heq Hin]]. subst o.
    specialize (Hl k r Hin).
    destruct (_parse_share_from_podil_list (sp_podil (l_spolecnik r))) as [sh raw] eqn:Es.
    split.
    + destruct sh as [v|]; [right; exists v; split; [reflexivity|]|left; reflexivity].
      apply (podil_share_bounds (sp_podil (l_spolecnik r))). rewrite Es. reflexivity.
    + exact Hl.
  - unfold akcionari_owners in Ho. apply in_flat_map in Ho. destruct Ho as [org [_ Ho]].
    destruct (negb (_is_active_item (o_datumVymazu org))); [destruct Ho|].
    apply in_flat_map in Ho. destruct Ho as [a [_ Ho]].
    destruct (negb (_is_active_item (c_datumVymazu a))); [destruct Ho|].
    assert (H100 : in100 100) by (split; discriminate).
    destruct (c_pravnickaOsoba a) as [po|]; [|destruct (c_fyzickaOsoba a) as [fo|]; [|destruct Ho]];
      simpl in Ho; destruct Ho as [<-|[]]; (split; [right; exists 100%Q; split; [reflexivity|exact H100]|]);
      simpl; [apply normalize_ico_ok|reflexivity].
Qed.

(** [extract_current_owners] (ares_vr_extract.py, lines 211-318): the
    company id it returns is empty or a normalised id (digits only, at least
    8 of them); every owner it returns has a percentage in [0, 100] or none,
    a natural person has no id and a legal person's id is normalised. *)
Theorem extract_owner_fields fio dmin p :
  let '(c_ico, _, owners) := extract_current_owners fio dmin p in
  (c_ico = "" \/ (Ico.all_digits c_ico /\ (8 <= String.length c_ico)%nat))
  /\ forall o, In o owners ->
       (share_pct o = None \/ exists v, share_pct o = Some v /\ (0 <= v <= 100)%Q)
       /\ match kind o with
          | PERSON => ico o = None
          | COMPANY => forall i, ico o = Some i -> Ico.all_digits i /\ (8 <= String.length i)%nat
          end.
Proof.
  destruct (extract_current_owners fio dmin p) as [[c_ico c_name] owners] eqn:E.
  exact (extract_owners_ok fio dmin p c_ico c_name owners E).
Qed.

Lemma dict_get_in {V} k (d : list (string * list V)) x :
  In x (dict_get k d []) -> exists k' l, In (k', l) d /\ In x l.
Proof.
  induction d as [|[k' l] t IH]; simpl; [intros []|].
  destruct (String.eqb k k').
  - intros H. exists k', l. split; [left; reflexivity|exact H].
  - intros H. destruct (IH H) as [k1 [l1 [H1 H2]]]. exists k1, l1. split; [right; exact H1|exact H2].
Qed.

Lemma merge_owners_share fio dmin gv mo c_ico owners :
  (forall t l i s, In (t, l) mo -> In (i, s) l -> in01 s) ->
  (forall o, In o owners -> share_ok o) ->
  forall o, In o (merge_owners fio dmin gv mo c_ico owners) -> share_ok o.
Proof.
  intros Hmo Ho. unfold merge_owners.
  assert (Hm : forall o, In o (map (manual_owner fio dmin gv) (dict_get c_ico mo [])) -> share_ok o).
  { intros o Hin. apply in_map_iff in Hin. destruct Hin as [[i s] [<- Hin]].
    destruct (dict_get_in _ _ _ Hin) as [k' [l [H1 H2]]]. destruct (Hmo _ _ _ _ H1 H2) as [Hs0 Hs1].
    unfold manual_owner, share_ok. simpl. right. eexists; split; [reflexivity|].
    split.
    - apply Qmult_le_0_compat; [exact Hs0|discriminate].
    - rewrite <- (Qmult_1_l 100) at 2. apply Qmult_le_compat_r; [exact Hs1|discriminate]. }
  destruct (map (manual_owner fio dmin gv) (dict_get c_ico mo [])) as [|m ms] eqn:E; [exact Ho|].
  intros o Hin. apply in_app_or in Hin. destruct Hin as [Hin|Hin]; [apply Ho, Hin|apply Hm, Hin].
Qed.

Lemma local_share_bounds o s : share_ok o -> local_share o = Some s -> in01 s.
Proof.
  unfold local_share. intros [Hn|[v [Hv [H0 H1]]]].
  - rewrite Hn. destruct (truthy (share_raw o)); [apply parse_pct_bounds|discriminate].
  - rewrite Hv. intros [= <-]. split.
    + apply Qle_shift_div_l; [reflexivity|]. rewrite Qmult_0_l. exact H0.
    + apply Qle_shift_div_r; [reflexivity|]. rewrite Qmult_1_l. exact H1.
Qed.

Lemma in01_mult a b : in01 a -> in01 b -> in01 (a * b).
Proof.
  intros [Ha0 Ha1] [Hb0 Hb1]. split; [apply Qmult_le_0_compat; assumption|].
  apply Qle_trans with (1 * b)%Q; [apply Qmult_le_compat_r; assumption|rewrite Qmult_1_l; exact Hb1].
Qed.

Lemma in01_100 a : in01 a -> in100 (a * 100).
Proof.
  intros [H0 H1]. split; [apply Qmult_le_0_compat; [exact H0|discriminate]|].
  rewrite <- (Qmult_1_l 100) at 2. apply Qmult_le_compat_r; [exact H1|discriminate].
Qed.

Lemma owner_line_bounds d lbl m o :
  in01 m -> share_ok o ->
  (forall v, effective_pct (fst (owner_line d lbl m o)) = Some v -> in100 v)
  /\ (forall c nm, snd (owner_line d lbl m o) = Some (c, nm) -> in01 nm).
Proof.
  intros Hm Ho. unfold owner_line.
  destruct (local_share o) as [s|] eqn:Hs;
    [pose proof (local_share_bounds o s Ho Hs) as Hs'|destruct (eff_share o) as [e|] eqn:He;
      [pose proof (parse_effective_bounds _ e He) as He'|]];
    destruct (is_company_owner o); simpl;
    (split; [intros v Hv; inversion Hv; subst v|intros c nm Hc; inversion Hc; subst nm]);
    try apply in01_100; try apply in01_mult; try assumption.
Qed.

Lemma extract_share_ok fio dmin p c_ico c_name owners :
  extract fio dmin p = (c_ico, c_name, owners) -> forall o, In o owners -> share_ok o.
Proof.
  unfold extract. intros E o Ho. apply (proj1 (proj2 (extract_owners_ok _ _ _ _ _ _ E) o Ho)).
Qed.

Section Bounds.
Variables (fio : string -> option Z) (dmin : Z) (gv : string -> option Payload) (md : Z)
          (mo : list (string * list (string * Q))).
Hypothesis Hmo : forall t l i s, In (t, l) mo -> In (i, s) l -> in01 s.

Lemma reached_mult_bounds ico0 d0 m0 ico d m path :
  in01 m0 -> Reached fio dmin gv md mo ico0 d0 m0 ico d m path -> in01 m.
Proof.
  intros H0. induction 1 as [|ico d m path p c_ico c_name owners o cico nm _ IH Hg Hp He Hx Ho Hol];
    [exact H0|].
  apply (proj2 (owner_line_bounds d (label o) m o IH
           (merge_owners_share fio dmin gv mo c_ico owners Hmo (extract_share_ok _ _ _ _ _ _ Hx) o Ho)) cico nm Hol).
Qed.

Lemma lineof_bounds ico0 d0 m0 l :
  in01 m0 -> LineOf fio dmin gv md mo ico0 d0 m0 l ->
  forall v, effective_pct l = Some v -> in100 v.
Proof.
  intros H0 Hl. destruct Hl as [ico d m path Hr _|ico d m path p Hr _ _ _
                  |ico d m path p c_ico c_name owners Hr _ _ _ _
                  |ico d m path p c_ico c_name owners o Hr _ _ _ _ _
                  |ico d m path p c_ico c_name owners o Hr Hg Hp He Hx Ho];
    simpl; try discriminate.
  - destruct (Z.eqb d 0); [|discriminate]. intros v [= <-].
    apply in01_100, (reached_mult_bounds ico0 d0 m0 ico d m path H0 Hr).
  - apply (proj1 (owner_line_bounds d (label o) m o (reached_mult_bounds ico0 d0 m0 ico d m path H0 Hr)
           (merge_owners_share fio dmin gv mo c_ico owners Hmo (extract_share_ok _ _ _ _ _ _ Hx) o Ho))).
Qed.

End Bounds.

Lemma ex_overrides_in01 :
  forall t l i s, In (t, l) Ex.manual_overrides -> In (i, s) l -> (0 <= s <= 1)%Q.
Proof.
  intros t l i s [[= <- <-]|[]] [[= <- <-]|[]]. split; discriminate.
Qed.

(** [resolve_tree_online] (ownership_resolve_online.py, lines 125-287):
    when every manual share is a fraction in [0, 1], every effective
    percentage written on a trace line lies in [0, 100]. *)
Theorem trace_effective_pct_bounds fio dmin gv md mo root ls ws :
  (forall t l i s, In (t, l) mo -> In (i, s) l -> (0 <= s <= 1)%Q) ->
  resolve_tree_online fio dmin gv md mo root = Some (ls, ws) ->
  forall l v, In l ls -> effective_pct l = Some v -> (0 <= v <= 100)%Q.
Proof.
  intros Hmo Hw l v Hl.
  destruct (ResolveFacts.walk_lines _ _ _ _ _ root 0 1 _ _ _ _ _ _ _ (reached_root _ _ _ _ _ _ _ _) Hw l Hl)
    as [[]|Hlo].
  apply (lineof_bounds fio dmin gv md mo Hmo root 0 1 l); [split; discriminate|exact Hlo].
Qed.

Lemma trace_effective_pct_bounds_witness :
  let r := resolve_tree_online Ex.fromisoformat 0 Ex.get_vr 25 Ex.manual_overrides "00000001" in
  let ls := fst (default ([], []) r) in
  (forall t l i s, In (t, l) Ex.manual_overrides -> In (i, s) l -> (0 <= s <= 1)%Q)
  /\ r = Some (ls, snd (default ([], []) r))
  /\ forall l v, In l ls -> effective_pct l = Some v -> (0 <= v <= 100)%Q.
Proof.
  intros r ls.
  assert (E : r = Some (ls, snd (default ([], []) r))) by (vm_compute; reflexivity).
  split; [exact ex_overrides_in01|]. split; [exact E|].
  exact (trace_effective_pct_bounds _ _ _ _ _ _ _ _ ex_overrides_in01 E).
Defined.

(** [resolve_tree_online]: the root header is at depth 0 and every other
    trace line at a depth between 0 and [max_depth + 3]. *)
Theorem trace_depth_bounds fio dmin gv md mo root ls ws :
  resolve_tree_online fio dmin gv md mo root = Some (ls, ws) ->
  forall l, In l ls -> (0 <= depth l)%Z /\ (depth l = 0 \/ depth l <= md + 3)%Z.
Proof.
  intros Hw l Hl.
  destruct (ResolveFacts.walk_lines _ _ _ _ _ root 0 1 _ _ _ _ _ _ _ (reached_root _ _ _ _ _ _ _ _) Hw l Hl)
    as [[]|Hlo].
  destruct Hlo as [ico d m path Hr Hg|ico d m path p Hr Hg _ _
                  |ico d m path p c_ico c_name owners Hr Hg _ _ _
                  |ico d m path p c_ico c_name owners o Hr Hg _ _ _ _
                  |ico d m path p c_ico c_name owners o Hr Hg _ _ _ _];
    destruct (ResolveFacts.reached_depth _ _ _ _ _ _ _ _ _ _ _ _ Hr) as [H0 [_ H4]];
    [apply Z.ltb_lt in Hg|apply Z.ltb_ge in Hg..]; simpl;
    try rewrite ResolveFacts.owner_line_depth; lia.
Qed.

Lemma trace_depth_bounds_witness :
  let r := resolve_tree_online Ex.fromisoformat 0 Ex.get_vr 1 Ex.manual_overrides "00000001" in
  let ls := fst (default ([], []) r) in
  r = Some (ls, snd (default ([], []) r))
  /\ forall l, In l ls -> (0 <= depth l)%Z /\ (depth l = 0 \/ depth l <= 1 + 3)%Z.
Proof.
  intros r ls.
  assert (E : r = Some (ls, snd (default ([], []) r))) by (vm_compute; reflexivity).
  split; [exact E|]. exact (trace_depth_bounds _ _ _ _ _ _ _ _ E).
Defined.

End BoundFacts.

(* ------------------------------------------------------------------ *)
(** ** Warnings of the resolver *)

Module WarnFacts.
Import Chars Extract Resolve.

Lemma warn_ok_mono fio dmin gv md mo ico0 d0 m0 ls ls' w :
  incl ls ls' -> warn_ok fio dmin gv md mo ico0 d0 m0 ls w -> warn_ok fio dmin gv md mo ico0 d0 m0 ls' w.
Proof.
  intros Hi [ico [d [m [path [p [Hr [Hd [Hp H]]]]]]]]. exists ico, d, m, path, p.
  split; [exact Hr|]. split; [exact Hd|]. split; [exact Hp|].
  destruct H as [[H1 [H2 H3]]|[c_ico [c_name [owners [H1 [H2 [H3 [H4 H5]]]]]]]].
  - left. split; [exact H1|]. split; [exact H2|apply Hi, H3].
  - right. exists c_ico, c_name, owners. repeat (split; [assumption|]). apply Hi, H5.
Qed.

Lemma incl_app_state (a t : State) : incl (fst a) (fst (app_state a t)).
Proof. intros x Hx. simpl. apply in_or_app. left. exact Hx. Qed.

Lemma walk_warnings fio dmin gv md mo ico0 d0 m0 fuel :
  forall ico d m path st st',
  Reached fio dmin gv md mo ico0 d0 m0 ico d m path ->
  walk fio dmin gv md mo fuel ico d m st = Some st' ->
  forall w, In w (snd st') -> In w (snd st) \/ warn_ok fio dmin gv md mo ico0 d0 m0 (fst st') w.
Proof.
  induction fuel as [|f IH]; intros ico d m path st st' Hr; simpl walk.
  { intros [= <-] w Hw. left. exact Hw. }
  destruct (Z.ltb md d) eqn:Hg.
  { intros [= <-] w Hw. left. exact Hw. }
  apply Z.ltb_ge in Hg.
  destruct (gv ico) as [p|] eqn:Hp; [|discriminate].
  destruct (truthy (_error p)) eqn:He.
  { intros [= <-] w Hw. simpl in Hw. apply in_app_or in Hw.
    destruct Hw as [Hw|[<-|[]]]; [left; exact Hw|right].
    exists ico, d, m, path, p. split; [exact Hr|]. split; [exact Hg|]. split; [exact Hp|].
    left. split; [exact He|]. split; [reflexivity|]. simpl. apply in_or_app. right. left. reflexivity. }
  destruct (extract fio dmin p) as [[c_ico c_name] owners] eqn:Hx.
  set (hdr := mkLine d "" (header_text c_name c_ico) (if Z.eqb d 0 then Some (m * 100)%Q else None)).
  set (I := fun s : State => forall w, In w (snd s) -> In w (snd st) \/ warn_ok fio dmin gv md mo ico0 d0 m0 (fst s) w).
  assert (Hmono : forall s s', I s -> incl (fst s) (fst s') -> (forall w, In w (snd s') -> In w (snd s)) -> I s').
  { intros s s' Hs Hi Hw' w Hw2. destruct (Hs w (Hw' w Hw2)) as [H|H]; [left; exact H|right].
    eapply warn_ok_mono; eassumption. }
  intros Hw. apply (ResolveFacts.fold_opt_inv I) in Hw; [exact Hw| |].
  2:{ intros w Hw'. destruct (merge_owners fio dmin gv mo c_ico owners) as [|o0 os0] eqn:Em;
      simpl in Hw'; [apply in_app_or in Hw'; destruct Hw' as [Hw'|[<-|[]]]|]; try (left; exact Hw').
      right. exists ico, d, m, path, p. split; [exact Hr|]. split; [exact Hg|]. split; [exact Hp|].
      right. exists c_ico, c_name, owners. split; [exact He|]. split; [exact Hx|]. split; [exact Em|].
      split; [reflexivity|]. simpl. apply in_or_app. right. left. reflexivity. }
  intros [lbl lst] s s' Hin Hs. apply ResolveFacts.group_by_label_inv in Hin. destruct Hin as [_ Hlst].
  apply (ResolveFacts.fold_opt_inv I).
  2:{ apply (Hmono s); [exact Hs| |intros w Hw'; exact Hw']. apply incl_appl, incl_refl. }
  intros o s1 s2 Ho Hs1. destruct (Hlst o Ho) as [<- Hom].
  destruct (owner_line d (label o) m o) as [ln child] eqn:Hol.
  assert (Hs1' : I (add_line s1 ln)).
  { apply (Hmono s1); [exact Hs1| |intros w Hw'; exact Hw']. apply incl_appl, incl_refl. }
  destruct child as [[cico nm]|].
  - intros Hw2. pose proof (ResolveFacts.walk_prefix _ _ _ _ _ _ _ _ _ _ _ Hw2) as [t Ht].
    intros w Hw'.
    destruct (IH _ _ _ _ _ _ (reached_child _ _ _ _ _ _ _ _ ico d m path p c_ico c_name owners o cico nm Hr ltac:(apply Z.ltb_ge; exact Hg) Hp He Hx Hom ltac:(rewrite Hol; reflexivity)) Hw2 w Hw') as [H|H];
      [|right; exact H].
    destruct (Hs1' w H) as [H'|H']; [left; exact H'|right].
    eapply warn_ok_mono; [|exact H']. rewrite Ht. apply incl_app_state.
  - intros [= <-]. exact Hs1'.
Qed.

(** [resolve_tree_online] (ownership_resolve_online.py, lines 125-287):
    every warning it returns comes from a node reached from the root within
    [max_depth]: an "error" warning from a node whose payload carries
    [_error], with that node's error line in the trace, or an "unresolved"
    warning from a node whose merged owner list is empty, with that node's
    header line in the trace. *)
Theorem warnings_explained fio dmin gv md mo root ls ws :
  resolve_tree_online fio dmin gv md mo root = Some (ls, ws) ->
  forall w, In w ws -> warn_ok fio dmin gv md mo root 0 1 ls w.
Proof.
  intros Hw w Hin.
  destruct (walk_warnings _ _ _ _ _ root 0 1 _ _ _ _ _ _ _ (reached_root _ _ _ _ _ _ _ _) Hw w Hin)
    as [[]|H].
  exact H.
Qed.

Lemma warnings_explained_witness :
  let r := resolve_tree_online Ex.fromisoformat 0 Ex.get_vr 25 Ex.manual_overrides "00000001" in
  let ls := fst (default ([], []) r) in
  let ws := snd (default ([], []) r) in
  r = Some (ls, ws) /\ ws <> []
  /\ forall w, In w ws -> warn_ok Ex.fromisoformat 0 Ex.get_vr 25 Ex.manual_overrides "00000001" 0 1 ls w.
Proof.
  intros r ls ws.
  assert (E : r = Some (ls, ws)) by (vm_compute; reflexivity).
  split; [exact E|]. split; [vm_compute; discriminate|].
  exact (warnings_explained _ _ _ _ _ _ _ _ E).
Defined.

End WarnFacts.

(* ------------------------------------------------------------------ *)
(** ** Shareholder records *)

Module MemberFacts.
Import Chars Extract Inv.

Lemma key_eqb_spec (k k' : string * string) :
  (String.eqb (fst k) (fst k') && String.eqb (snd k) (snd k')) = true <-> k = k'.
Proof.
  destruct k as [a b], k' as [a' b']. simpl. rewrite andb_true_iff, !String.eqb_eq.
  split; [intros [-> ->]; reflexivity|intros [= -> ->]; split; reflexivity].
Qed.

Lemma assoc_set_keys k v d :
  map fst (assoc_set k v d) = if in_dec (fun a b : string * string => decide (a = b)) k (map fst d)
                              then map fst d else (map fst d ++ [k])%list.
Proof.
  induction d as [|[k' v'] t IH]; cbn [assoc_set map fst]; [reflexivity|].
  destruct (in_dec (fun a b : string * string => decide (a = b)) k (k' :: map fst t)) as [H2|H2].
  - destruct (String.eqb (fst k) (fst k') && String.eqb (snd k) (snd k')) eqn:E; cbn [map fst];
      [reflexivity|].
    rewrite IH. destruct H2 as [->|H2]; [rewrite (proj2 (key_eqb_spec k k) eq_refl) in E; discriminate|].
    destruct (in_dec (fun a b : string * string => decide (a = b)) k (map fst t)); [reflexivity|contradiction].
  - destruct (String.eqb (fst k) (fst k') && String.eqb (snd k) (snd k')) eqn:E.
    + apply key_eqb_spec in E. subst k'. exfalso. apply H2. left. reflexivity.
    + cbn [map fst]. rewrite IH.
      destruct (in_dec (fun a b : string * string => decide (a = b)) k (map fst t)) as [H1|H1];
        [exfalso; apply H2; right; exact H1|reflexivity].
Qed.

Lemma assoc_set_entries k v d k' x :
  In (k', x) (assoc_set k v d) -> In (k', x) d \/ (k' = k /\ x = v).
Proof.
  induction d as [|[k0 v0] t IH]; simpl.
  - intros [[= <- <-]|[]]. right. split; reflexivity.
  - destruct (String.eqb (fst k) (fst k0) && String.eqb (snd k) (snd k0)) eqn:E.
    + apply key_eqb_spec in E. subst k0.
      intros [[= <- <-]|H]; [right; split; reflexivity|left; right; exact H].
    + intros [H|H]; [left; left; exact H|]. destruct (IH H) as [H'|H']; [left; right; exact H'|right; exact H'].
Qed.

Lemma latest_step_inv fio dmin lbl latest sp :
  latest_inv latest -> latest_inv (latest_step fio dmin lbl latest sp).
Proof.
  intros [Hnd Hk]. unfold latest_step.
  destruct (negb (_is_active_item (sp_datumVymazu sp))); [split; assumption|].
  assert (G : forall kd nm i (b : bool), latest_inv (if b
      then assoc_set (lbl, owner_ident kd nm i) (mkLatest lbl kd nm i sp (sp_datumZapisu sp)) latest
      else latest)).
  { intros kd nm i b. destruct b; [|split; assumption].
    split.
    - rewrite assoc_set_keys. destruct (in_dec _ _ _) as [_|Hn]; [exact Hnd|].
      apply NoDup_app. split; [exact Hnd|]. split; [|apply NoDup_singleton].
      intros x Hx Hx'. apply list_elem_of_singleton in Hx'. subst x.
      apply Hn. apply list_elem_of_In. exact Hx.
    - intros k r Hin. apply assoc_set_entries in Hin. destruct Hin as [Hin|[-> ->]]; [apply Hk, Hin|reflexivity]. }
  destruct (match sp_osoba sp with Some o => pravnickaOsoba o | None => None end) as [po|];
    [|destruct (match sp_osoba sp with Some o => fyzickaOsoba o | None => None end) as [fo|];
      [|split; assumption]].
  - cbv zeta. apply (G COMPANY).
  - cbv zeta. apply (G PERSON).
Qed.

(** The shareholder list of [extract_current_owners]
    (ares_vr_extract.py, lines 236-296) holds each pair (organ label, owner
    identity) at most once: [COMPANY:] with the id (or the name when there
    is no id) for a legal person, [PERSON:] with the name for a natural
    person. *)
Theorem member_owners_unique fio dmin bloky :
  NoDup (map (fun o => (label o, owner_ident (kind o) (name o) (ico o))) (spolecnici_owners fio dmin bloky)).
Proof.
  unfold spolecnici_owners.
  match goal with |- context [fold_left ?f bloky []] => set (latest := fold_left f bloky []) end.
  assert (Hl : latest_inv latest).
  { unfold latest.
    assert (G : forall bl acc, latest_inv acc ->
      latest_inv (fold_left (fun latest blok =>
          if negb (_is_active_item (b_datumVymazu blok)) then latest else
          fold_left (latest_step fio dmin (or_else (b_nazevOrganu blok) "Společníci")) (b_spolecnik blok) latest) bl acc)).
    { induction bl as [|b bl IH]; intros acc Hacc; simpl; [exact Hacc|].
      apply IH. destruct (negb (_is_active_item (b_datumVymazu b))); [exact Hacc|].
      generalize dependent acc. induction (b_spolecnik b) as [|sp sps IHs]; intros acc Hacc; simpl; [exact Hacc|].
      apply IHs. apply latest_step_inv, Hacc. }
    apply G. split; [constructor|intros k r []]. }
  destruct Hl as [Hnd Hk].
  rewrite map_map.
  replace (map _ latest) with (map fst latest); [exact Hnd|].
  apply map_ext_in. intros [k r] Hin. rewrite (Hk k r Hin).
  destruct (_parse_share_from_podil_list (sp_podil (l_spolecnik r))). reflexivity.
Qed.

Lemma fold_left_skip {A B} (f : A -> B -> A) (keep : B -> bool) :
  (forall acc x, keep x = false -> f acc x = acc) ->
  forall l acc, fold_left f l acc = fold_left f (List.filter keep l) acc.
Proof.
  intros Hf. induction l as [|x l IH]; intros acc; simpl; [reflexivity|].
  destruct (keep x) eqn:E; simpl; [apply IH|rewrite Hf by exact E; apply IH].
Qed.

(** [_parse_share_from_podil_list] (ares_vr_extract.py, lines 144-187)
    ignores deleted share records: its result is the same as on the list
    with every entry having a deletion date removed. *)
Theorem podil_ignores_deleted ps :
  _parse_share_from_podil_list ps
  = _parse_share_from_podil_list (List.filter (fun p => _is_active_item (p_datumVymazu p)) ps).
Proof.
  unfold _parse_share_from_podil_list.
  match goal with |- context [fold_left ?f ps ?a] =>
    rewrite (fold_left_skip f (fun p => _is_active_item (p_datumVymazu p))) end;
    [reflexivity|].
  intros [[a b] c] p E. cbv beta iota. rewrite E. reflexivity.
Qed.

End MemberFacts.

(* ------------------------------------------------------------------ *)
(** ** Rendering of the trace *)

Module RenderFacts.
Import Chars App Inv.

Lemma chars_app (a b : string) : chars (a ++ b) = (chars a ++ chars b)%list.
Proof.
  induction a as [|c a IH]; simpl; [reflexivity|]. unfold chars in *. simpl. rewrite IH. reflexivity.
Qed.

Lemma chars_indents n : chars (str_repeat n INDENT) = repeat " "%char (4 * n).
Proof.
  induction n as [|n IH]; [reflexivity|].
  replace (4 * S n) with (4 + 4 * n) by lia.
  rewrite repeat_app. simpl str_repeat. rewrite chars_app, IH. reflexivity.
Qed.

Lemma strip_kept_not_ws c : strip_kept c = true -> is_space c = false /\ is_sp c = false /\ is_nl c = false.
Proof.
  unfold strip_kept, is_sp, is_nl, ascii_eqb. intros H.
  apply andb_true_iff in H as [_ H]. apply negb_true_iff in H.
  split; [exact H|split].
  - destruct (Ascii.eqb_spec c " "); [subst c; discriminate|reflexivity].
  - destruct (Ascii.eqb_spec c "010"); [subst c; discriminate|reflexivity].
Qed.

Lemma drop_while_head p (l : list ascii) :
  (forall c, hd_error l = Some c -> p c = false) -> drop_while p l = l.
Proof. destruct l as [|c l]; simpl; [reflexivity|]. intros H. rewrite (H c eq_refl). reflexivity. Qed.

Lemma take_while_repeat p c n (l : list ascii) :
  p c = true -> (forall c', hd_error l = Some c' -> p c' = false) ->
  take_while p (repeat c n ++ l) = (repeat c n, l).
Proof.
  intros Hc Hl. induction n as [|n IH]; simpl.
  - destruct l as [|c' l]; [reflexivity|]. simpl. rewrite (Hl c' eq_refl). reflexivity.
  - rewrite Hc, IH. reflexivity.
Qed.

Lemma render_line_roundtrip d t :
  (0 <= d)%Z -> ~ In "010"%char (chars t) ->
  (forall c, hd_error (chars t) = Some c -> strip_kept c = true) ->
  (forall c, hd_error (rev (chars t)) = Some c -> strip_kept c = true) ->
  _line_depth_text_str (render_line d t) = (d, t).
Proof.
  intros Hd Hnl Hhd Hlast.
  unfold _line_depth_text_str, render_line. rewrite chars_app, chars_indents.
  set (n := Z.to_nat (Z.max 0 d)).
  assert (Hn : Z.of_nat n = d) by (unfold n; lia).
  assert (Hs : rev (drop_while is_nl (rev (repeat " "%char (4 * n) ++ chars t)))
               = (repeat " "%char (4 * n) ++ chars t)%list).
  { rewrite drop_while_head; [apply rev_involutive|].
    rewrite rev_app_distr. intros c Hc.
    destruct (rev (chars t)) as [|c0 r] eqn:Er.
    - simpl in Hc. rewrite rev_repeat in Hc.
      assert (Hr : forall m, hd_error (repeat " "%char m) = Some c -> c = " "%char)
        by (intros [|m]; simpl; congruence).
      rewrite (Hr _ Hc). reflexivity.
    - simpl in Hc. injection Hc as <-. apply strip_kept_not_ws, Hlast. reflexivity. }
  rewrite Hs.
  rewrite take_while_repeat; [|reflexivity|intros c Hc; apply strip_kept_not_ws, Hhd, Hc].
  assert (Hstrip : strip (of_chars (chars t)) = t).
  { unfold strip. rewrite IcoFacts.chars_of_chars. unfold strip_l.
    rewrite (drop_while_head is_space (chars t)) by (intros c Hc; apply strip_kept_not_ws, Hhd, Hc).
    rewrite (drop_while_head is_space (rev (chars t))) by (intros c Hc; apply strip_kept_not_ws, Hlast, Hc).
    rewrite rev_involutive. apply string_of_list_ascii_of_string. }
  destruct n as [|k] eqn:Ek.
  - simpl. rewrite <- Hn. f_equal. apply string_of_list_ascii_of_string.
  - replace (4 * S k) with (S (4 * k + 3)) by lia. simpl repeat. cbv iota.
    assert (Hx : existsb is_nl (chars t) = false).
    { apply not_true_iff_false. intros H. apply existsb_exists in H. destruct H as [c [Hc Hc']].
      unfold is_nl, ascii_eqb in Hc'. apply Ascii.eqb_eq in Hc'. subst c. contradiction. }
    rewrite Hx. rewrite Hstrip. f_equal.
    cbn [List.length]. rewrite repeat_length, <- Hn. Z.div_mod_to_equations. lia.
Qed.

(** [render_lines] then [_line_depth_text] (app.py, lines 110-146): the
    rendered text lines read back as the trace's (depth, text) pairs, for
    lines with a non-negative depth and a text without newlines that neither
    starts nor ends with a whitespace character or a non-ASCII byte. *)
Theorem render_lines_roundtrip lines :
  forallb render_safe lines = true ->
  map _line_depth_text_str (render_lines lines)
  = map (fun ln => (Resolve.depth ln, Resolve.text ln)) lines.
Proof.
  induction lines as [|ln t IH]; simpl; [reflexivity|].
  intros H. apply andb_true_iff in H as [H Ht]. rewrite (IH Ht). f_equal.
  unfold render_safe in H. apply andb_true_iff in H as [H H4]. apply andb_true_iff in H as [H H3].
  apply andb_true_iff in H as [H1 H2].
  apply render_line_roundtrip.
  - apply Z.leb_le, H1.
  - intros Hin. apply negb_true_iff in H2. apply not_true_iff_false in H2. apply H2.
    apply existsb_exists. exists "010"%char. split; [exact Hin|reflexivity].
  - intros c Hc. rewrite Hc in H3. exact H3.
  - intros c Hc. rewrite Hc in H4. exact H4.
Qed.

Lemma render_lines_roundtrip_witness :
  let lines := [Resolve.mkLine 0 "" "Alfa s.r.o. (IČO 00000001)" (Some 100%Q);
                Resolve.mkLine 2 "" "Akcionáři:" None;
                Resolve.mkLine 3 "Akcionáři" "Jan Novák" None;
                Resolve.mkLine 1 "" (String "001" (String "x" (String "127" EmptyString))) None] in
  forallb render_safe lines = true
  /\ map _line_depth_text_str (render_lines lines)
     = map (fun ln => (Resolve.depth ln, Resolve.text ln)) lines.
Proof.
  intros lines.
  assert (H : forallb render_safe lines = true) by (vm_compute; reflexivity).
  split; [exact H|]. exact (render_lines_roundtrip lines H).
Defined.

End RenderFacts.
